(** * DataQnA: the risk combiner and the confidence interval of the notebooks

    A shallow embedding of the Python helper functions of
    [nb/combine_risk.ipynb] and [nb/confidence.ipynb]:

    - [amean], [gmean], [mean_plus_gmean]  (the "risk combiner"),
    - [compute_ci]                          (the 90% confidence interval).

    The functions work on NumPy [float64] scalars.  A [float64] is modelled
    as a real number, an infinity or NaN.  Every arithmetic operation rounds
    its exact result with a rounding operator [rnd], which is a parameter of
    the embedding: with [exact] (the identity) the operations are those of
    real arithmetic, which is the data model of the specification ("a real
    number"); with [round64] they round to the nearest binary64 number, as
    the interpreter does.  The laws of the combiner are stated in exact
    arithmetic, and each says so; the outputs that the notebook records,
    and the inputs on which a law fails in the interpreter, are evaluated
    in binary64.

    Integer scores take a path of their own in NumPy, with sums and
    products in 64-bit integers that wrap around: module [Int64] embeds the
    three functions on that path.  On positive integers whose sum and
    product are below [2^53] the two paths give the same float.

    Not modelled: signed zeros, overflow to an infinity and subnormal
    numbers; the pairwise summation that NumPy uses for arrays of eight or
    more floats (it changes the rounding of a sum, not its exact value);
    missing values in the data of [compute_ci]; the warnings that NumPy
    prints when it produces NaN or an infinity. *)

From Stdlib Require Import Reals Lra Lia List ZArith Permutation Bool.
From stdpp Require Import gmap strings.
Import ListNotations.
Local Open Scope R_scope.

(** ** Values, exceptions and results *)

Inductive float64 : Type :=
| Fin (r : R)              (* a finite number *)
| Inf (negative : bool)    (* +inf ([false]) and -inf ([true]) *)
| NaN.

Inductive exn : Type :=
| ZeroDivisionError
| TypeError.

Inductive result (A : Type) : Type :=
| Ok (a : A)
| Raise (e : exn).
Arguments Ok {A} a.
Arguments Raise {A} e.

Definition bind {A B : Type} (m : result A) (f : A -> result B) : result B :=
  match m with
  | Ok a => f a
  | Raise e => Raise e
  end.

Notation "'let!' x ':=' m 'in' f" := (bind m (fun x => f))
  (at level 10, x name, m at level 100, f at level 200).

(** Boolean tests on real numbers. *)
Definition is_zero (x : R) : bool := if Req_dec_T x 0 then true else false.
Definition is_neg (x : R) : bool := if Rlt_dec x 0 then true else false.
Definition is_pos (x : R) : bool := if Rlt_dec 0 x then true else false.
Definition is_integer (x : R) : bool :=
  if Req_dec_T x (IZR (Zfloor x)) then true else false.

(** ** float64 arithmetic, for a rounding operator [rnd] *)

Section Arithmetic.

Variable rnd : R -> R.

Definition fadd (a b : float64) : float64 :=
  match a, b with
  | NaN, _ | _, NaN => NaN
  | Fin x, Fin y => Fin (rnd (x + y))
  | Inf s, Inf t => if eqb s t then Inf s else NaN
  | Inf s, Fin _ => Inf s
  | Fin _, Inf t => Inf t
  end.

Definition fsub (a b : float64) : float64 :=
  match a, b with
  | NaN, _ | _, NaN => NaN
  | Fin x, Fin y => Fin (rnd (x - y))
  | Inf s, Inf t => if eqb s t then NaN else Inf s
  | Inf s, Fin _ => Inf s
  | Fin _, Inf t => Inf (negb t)
  end.

Definition fmul (a b : float64) : float64 :=
  match a, b with
  | NaN, _ | _, NaN => NaN
  | Fin x, Fin y => Fin (rnd (x * y))
  | Inf s, Inf t => Inf (xorb s t)
  | Inf s, Fin y => if is_zero y then NaN else Inf (xorb s (is_neg y))
  | Fin x, Inf t => if is_zero x then NaN else Inf (xorb (is_neg x) t)
  end.

(** NumPy division: dividing by zero gives an infinity or NaN (with a
    warning), it does not raise. *)
Definition fdiv (a b : float64) : float64 :=
  match a, b with
  | NaN, _ | _, NaN => NaN
  | Fin x, Fin y =>
      if is_zero y then (if is_zero x then NaN else Inf (is_neg x))
      else Fin (rnd (x / y))
  | Inf _, Inf _ => NaN
  | Inf s, Fin y => Inf (xorb s (is_neg y))
  | Fin _, Inf _ => Fin 0
  end.

(** [np.sqrt]. *)
Definition fsqrt (a : float64) : float64 :=
  match a with
  | NaN => NaN
  | Inf s => if s then NaN else Inf false
  | Fin x => if is_neg x then NaN else Fin (rnd (sqrt x))
  end.

(** [a ** y] for a NumPy scalar [a] and a finite Python float [y] (the C
    function [pow], taken as correctly rounded): a negative base has a real
    power only for an integer exponent, and gives NaN otherwise. *)
Definition fpow (a : float64) (y : R) : float64 :=
  if is_zero y then Fin 1
  else
    match a with
    | NaN => NaN
    | Inf s =>
        if is_neg y then Fin 0
        else Inf (s && is_integer y && Z.odd (Zfloor y))
    | Fin x =>
        if is_pos x then Fin (rnd (Rpower x y))
        else if is_zero x then (if is_pos y then Fin 0 else Inf false)
        else if is_integer y then Fin (rnd (powerRZ x (Zfloor y)))
        else NaN
    end.

(** Python's true division of two integers, [a / b]: it raises on a zero
    divisor. *)
Definition py_truediv (a : Z) (b : nat) : result R :=
  match b with
  | O => Raise ZeroDivisionError
  | S _ => Ok (rnd (IZR a / INR b))
  end.

(** [np.sum] and [np.prod] of a sequence of floats, accumulated from left
    to right, as NumPy does for fewer than eight elements (a longer array
    is added pairwise, which gives another float only when an addition
    rounds); the empty sum is [0.0] and the empty product is [1.0]. *)
Definition np_sum (xs : list float64) : float64 := fold_left fadd xs (Fin 0).
Definition np_prod (xs : list float64) : float64 := fold_left fmul xs (Fin 1).

(** ** The risk combiner (nb/combine_risk.ipynb) *)

(** def amean(xs):
        n = len(xs)
        return np.sum(xs) / n *)
Definition amean (xs : list float64) : float64 :=
  let n := length xs in
  fdiv (np_sum xs) (Fin (INR n)).

(** def gmean(xs):
        n = len(xs)
        return np.prod(xs) ** (1/n) *)
Definition gmean (xs : list float64) : result float64 :=
  let n := length xs in
  let! e := py_truediv 1 n in
  Ok (fpow (np_prod xs) e).

(** def mean_plus_gmean( *xs, k=1):
        return amean(xs) + k * (gmean(xs) - 4) *)
Definition mean_plus_gmean (xs : list float64) (k : float64) : result float64 :=
  let a := amean xs in
  let! g := gmean xs in
  Ok (fadd a (fmul k (fsub g (Fin 4)))).

(** A call of [mean_plus_gmean] with positional arguments [args] and keyword
    arguments [kwargs].  The signature [( *xs, k=1)] collects every
    positional argument in [xs]; [k] is keyword-only with default [1]; any
    other keyword is rejected with a [TypeError]. *)
Definition call_mean_plus_gmean (args : list float64) (kwargs : gmap string float64)
  : result float64 :=
  if decide (dom kwargs ⊆ ({[ "k"%string ]} : gset string)) then
    mean_plus_gmean args (default (Fin 1) (kwargs !! "k"%string))
  else Raise TypeError.

(** ** The confidence interval (nb/confidence.ipynb) *)

(** [np.mean] and [np.std] (population standard deviation, [ddof=0]) of an
    array of floats without missing values. *)
Definition np_mean (xs : list float64) : float64 :=
  fdiv (np_sum xs) (Fin (INR (length xs))).

Definition np_var (xs : list float64) : float64 :=
  let m := np_mean xs in
  let dev := map (fun x => fsub x m) xs in
  fdiv (np_sum (map (fun d => fmul d d) dev)) (Fin (INR (length xs))).

Definition np_std (xs : list float64) : float64 := fsqrt (np_var xs).

Definition is_nan (a : float64) : bool :=
  match a with NaN => true | _ => false end.

Definition fpositive (a : float64) : bool :=
  match a with
  | Fin x => is_pos x
  | Inf s => negb s
  | NaN => false
  end.

(** The quantile function of the standard normal distribution
    ([scipy.special.ndtri]) is a parameter. *)
Variable ndtri : R -> R.

(** [scipy.stats.norm(loc, scale).ppf(q)]: the quantile [ndtri(q) * scale +
    loc] when the scale is positive and [0 < q < 1]; the ends of the support
    for [q = 0] and [q = 1]; NaN for an invalid scale, location or [q]. *)
Definition norm_ppf (loc scale : float64) (q : R) : float64 :=
  if fpositive scale && negb (is_nan loc) then
    if is_pos q && is_pos (1 - q) then fadd (fmul (Fin (rnd (ndtri q))) scale) loc
    else if is_zero q then fadd (fmul (Inf true) scale) loc
    else if is_zero (1 - q) then fadd (fmul (Inf false) scale) loc
    else NaN
  else NaN.

(** def compute_ci(data):
        n = len(data)
        m = np.mean(data)
        s = np.std(data)
        sampling_dist = norm(m, s / np.sqrt(n))
        ci90 = sampling_dist.ppf([0.05, 0.95])
        return ci90 *)
Definition compute_ci (data : list float64) : float64 * float64 :=
  let n := length data in
  let m := np_mean data in
  let s := np_std data in
  let scale := fdiv s (fsqrt (Fin (INR n))) in
  (norm_ppf m scale (rnd (5 / 100)), norm_ppf m scale (rnd (95 / 100))).

End Arithmetic.

(** Exact (real) arithmetic. *)
Definition exact (x : R) : R := x.

(** ** Rounding to binary64 *)

(** Round to the nearest integer, ties to even. *)
Definition rint (y : R) : Z :=
  let f := Zfloor y in
  let d := y - IZR f in
  if Rlt_dec d (1 / 2) then f
  else if Rlt_dec (1 / 2) d then (f + 1)%Z
  else if Z.even f then f else (f + 1)%Z.

(** The binary exponent of [x <> 0]: the integer [e] with
    [2^e <= |x| < 2^(e+1)]. *)
Definition ilog2 (x : R) : Z := Zfloor (ln (Rabs x) / ln 2).

(** Round to nearest, ties to even, with a significand of 53 bits and an
    unbounded exponent. *)
Definition round64 (x : R) : R :=
  if is_zero x then 0
  else
    let q := powerRZ 2 (ilog2 x - 52) in
    IZR (rint (x / q)) * q.

(** The binary64 number nearest to [1/3], the value of the Python
    expression [1/3]. *)
Definition third64 : R := 6004799503160661 * powerRZ 2 (-54).

(** ** The combiner of the specification *)

Definition Rsum (xs : list R) : R := fold_right Rplus 0 xs.
Definition Rprod (xs : list R) : R := fold_right Rmult 1 xs.

(** "Arithmetic mean A = sum(scores) / count(scores)." *)
Definition arithmetic_mean (scores : list R) : R :=
  Rsum scores / INR (length scores).

(** "Geometric mean G = (product(scores))^(1/count(scores))." *)
Definition geometric_mean (scores : list R) : R :=
  Rpower (Rprod scores) (/ INR (length scores)).

(** "Result R = A + k * (G - c)", with the contract
    [combine(scores, k, c) -> real]. *)
Definition combine (scores : list R) (k c : R) : R :=
  arithmetic_mean scores + k * (geometric_mean scores - c).

(** Integer scores (a risk is a sum of two integer ratings), their sum and
    their product. *)
Definition Zsum (zs : list Z) : Z := fold_right Z.add 0%Z zs.
Definition Zprod (zs : list Z) : Z := fold_right Z.mul 1%Z zs.
Definition int_scores (zs : list Z) : list float64 :=
  map (fun z => Fin (IZR z)) zs.

(** Positive integer scores whose sum and product are below [2^53]. *)
Definition small_scores (zs : list Z) : Prop :=
  Forall (fun z => (0 < z)%Z) zs /\ (Zsum zs < 2 ^ 53)%Z /\ (Zprod zs < 2 ^ 53)%Z.

(** A result that is a finite number, and the order of two such results. *)
Definition returns (res : result float64) (r : R) : Prop := res = Ok (Fin r).

Definition result_le (a b : result float64) : Prop :=
  exists x y : R, returns a x /\ returns b y /\ x <= y.

(** A result that is a finite number within [10^-6] of [v]. *)
Definition approx (res : result float64) (v : R) : Prop :=
  exists r : R, returns res r /\ Rabs (r - v) < / 10 ^ 6.

(** All scores strictly positive. *)
Definition all_positive (xs : list R) : Prop := Forall (fun x => 0 < x) xs.

(** The sample mean, variance and standard deviation as real numbers. *)
Definition sample_var (data : list R) : R :=
  let m := arithmetic_mean data in
  Rsum (map (fun x => (x - m) * (x - m)) data) / INR (length data).

Definition sample_std (data : list R) : R := sqrt (sample_var data).

(** Two properties of the quantile function of the standard normal
    distribution: it is odd about the median, and strictly increasing. *)
Definition quantile_symmetric (ndtri : R -> R) : Prop :=
  forall q : R, 0 < q < 1 -> ndtri (1 - q) = - ndtri q.

Definition quantile_increasing (ndtri : R -> R) : Prop :=
  forall p q : R, 0 < p -> p < q -> q < 1 -> ndtri p < ndtri q.

(** A quantile function with both properties (that of the logistic
    distribution). *)
Definition logistic_quantile (q : R) : R := ln (q / (1 - q)).

(** ** The callers of [compute_ci] and the remaining cells *)

(** The comparison [a < b] of two floats; it is false when either is NaN. *)
Definition flt (a b : float64) : bool :=
  match a, b with
  | NaN, _ | _, NaN => false
  | Fin x, Fin y => if Rlt_dec x y then true else false
  | Inf s, Inf t => s && negb t
  | Inf s, Fin _ => s
  | Fin _, Inf t => negb t
  end.

(** def run_experiment(mu, sigma):
        data = norm.rvs(mu, sigma, size=100)
        low, high = compute_ci(data)
        return low < mu < high
    The sample that [norm.rvs] draws is the argument [data]; [sigma] enters
    only through it.  The chained comparison is [low < mu and mu < high]. *)
Definition run_experiment (rnd ndtri : R -> R) (data : list float64) (mu : float64)
  : bool :=
  let '(low, high) := compute_ci rnd ndtri data in
  flt low mu && flt mu high.

(** [np.diff(ci90)] for the two-element array [ci90]. *)
Definition np_diff (rnd : R -> R) (ci : float64 * float64) : float64 :=
  fsub rnd (snd ci) (fst ci).

(** The cell
        m = data.mean()
        ci90 = compute_ci(data)
        np.diff(ci90) / m * 100
    the width of the interval as a percentage of the estimate. *)
Definition width_percent (rnd ndtri : R -> R) (data : list float64) : float64 :=
  let m := np_mean rnd data in
  let ci90 := compute_ci rnd ndtri data in
  fmul rnd (fdiv rnd (np_diff rnd ci90) m) (Fin 100).


(** ** The download helper *)

(** [os.path.basename]: the part of the path after the last slash. *)
Definition slash : Ascii.ascii := Ascii.ascii_of_nat 47.

Definition is_slash (c : Ascii.ascii) : bool := Ascii.eqb c slash.

Fixpoint has_slash (p : string) : bool :=
  match p with
  | EmptyString => false
  | String c rest => is_slash c || has_slash rest
  end.

Fixpoint basename (p : string) : string :=
  match p with
  | EmptyString => EmptyString
  | String c rest =>
      if has_slash rest then basename rest
      else if is_slash c then rest
      else p
  end.

(** The files of the working directory and the lines printed so far. *)
Record world : Type := World {
  files : gset string;
  printed : list string
}.

(** [os.path.exists] for a name in the working directory. *)
Definition file_exists (filename : string) (w : world) : bool :=
  bool_decide (filename ∈ files w).

Definition print (line : string) (w : world) : world :=
  World (files w) (printed w ++ [line]).

Section Download.

(** [urllib.request.urlretrieve(url, filename)] is a parameter: it returns
    the local file name and the new state, or raises ([None]). *)
Variable urlretrieve : string -> string -> world -> option (string * world).

(** def download(url):
        filename = basename(url)
        if not exists(filename):
            from urllib.request import urlretrieve

            local, _ = urlretrieve(url, filename)
            print("Downloaded " + str(local))
        return filename *)
Definition download (url : string) (w : world) : option (string * world) :=
  let filename := basename url in
  if negb (file_exists filename w) then
    match urlretrieve url filename w with
    | Some (local, w') => Some (filename, print ("Downloaded " ++ local) w')
    | None => None
    end
  else Some (filename, w).

End Download.

(** A retrieval creates the file it was asked for. *)
Definition creates_file
    (urlretrieve : string -> string -> world -> option (string * world)) : Prop :=
  forall (url filename local : string) (w w' : world),
    urlretrieve url filename w = Some (local, w') -> filename ∈ files w'.

(** A retrieval that always succeeds and writes the file. *)
Definition urlretrieve_ok (url filename : string) (w : world)
  : option (string * world) :=
  Some (filename, World ({[ filename ]} ∪ files w) (printed w)).

(** Scores multiplied by a factor, and data shifted by an offset. *)
Definition scaled (c : R) (xs : list R) : list R := map (fun x => c * x) xs.
Definition shifted (c : R) (xs : list R) : list R := map (fun x => x + c) xs.

(** A pair of floats, each transformed by [f]. *)
Definition map_pair (f : float64 -> float64) (p : float64 * float64)
  : float64 * float64 := (f (fst p), f (snd p)).

(** The standard error of the mean, and the margin of the 90% interval. *)
Definition standard_error (data : list R) : R :=
  sample_std data / sqrt (INR (length data)).

Definition margin (ndtri : R -> R) (data : list R) : R :=
  ndtri (95 / 100) * standard_error data.

(** ** Integer scores: the 64-bit integers of NumPy *)

(** A call with Python integers, [mean_plus_gmean(9, 12)], hands [np.sum]
    and [np.prod] a tuple of integers, which NumPy turns into an array of
    64-bit integers: the sum and the product are computed in that type and
    wrap around modulo [2^64]; the division by [n] and the power convert
    them to float64.  The module embeds the same three functions on that
    path; each score is taken to fit in 64 bits. *)
Module Int64.

(** The 64-bit two's complement integer congruent to [z]. *)
Definition wrap (z : Z) : Z := ((z + 2 ^ 63) mod 2 ^ 64 - 2 ^ 63)%Z.

Definition np_sum (zs : list Z) : Z :=
  fold_left (fun a z => wrap (a + z)) zs 0%Z.

Definition np_prod (zs : list Z) : Z :=
  fold_left (fun a z => wrap (a * z)) zs 1%Z.

(** The conversion of a 64-bit integer to float64. *)
Definition to_float (rnd : R -> R) (z : Z) : float64 := Fin (rnd (IZR z)).

(** def amean(xs):
        n = len(xs)
        return np.sum(xs) / n *)
Definition amean (rnd : R -> R) (zs : list Z) : float64 :=
  let n := length zs in
  fdiv rnd (to_float rnd (np_sum zs)) (Fin (INR n)).

(** def gmean(xs):
        n = len(xs)
        return np.prod(xs) ** (1/n) *)
Definition gmean (rnd : R -> R) (zs : list Z) : result float64 :=
  let n := length zs in
  let! e := py_truediv rnd 1 n in
  Ok (fpow rnd (to_float rnd (np_prod zs)) e).

(** def mean_plus_gmean( *xs, k=1):
        return amean(xs) + k * (gmean(xs) - 4) *)
Definition mean_plus_gmean (rnd : R -> R) (zs : list Z) (k : float64)
  : result float64 :=
  let a := amean rnd zs in
  let! g := gmean rnd zs in
  Ok (fadd rnd a (fmul rnd k (fsub rnd g (Fin 4)))).

End Int64.

(** * Properties *)

(** ** Tests on reals *)

Lemma is_zero_true x : x = 0 -> is_zero x = true.
Proof. intros ->. unfold is_zero. destruct (Req_dec_T 0 0); congruence. Qed.

Lemma is_zero_false x : x <> 0 -> is_zero x = false.
Proof. intros H. unfold is_zero. destruct (Req_dec_T x 0); congruence. Qed.

Lemma is_pos_true x : 0 < x -> is_pos x = true.
Proof. intros H. unfold is_pos. destruct (Rlt_dec 0 x); [reflexivity | contradiction]. Qed.

Lemma is_pos_false x : x <= 0 -> is_pos x = false.
Proof. intros H. unfold is_pos. destruct (Rlt_dec 0 x); [lra | reflexivity]. Qed.

Lemma is_neg_true x : x < 0 -> is_neg x = true.
Proof. intros H. unfold is_neg. destruct (Rlt_dec x 0); [reflexivity | contradiction]. Qed.

Lemma is_neg_false x : 0 <= x -> is_neg x = false.
Proof. intros H. unfold is_neg. destruct (Rlt_dec x 0); [lra | reflexivity]. Qed.

Lemma is_integer_IZR z : is_integer (IZR z) = true.
Proof.
  unfold is_integer. rewrite ZfloorZ.
  destruct (Req_dec_T (IZR z) (IZR z)); congruence.
Qed.

Lemma is_integer_frac x : 0 < x < 1 -> is_integer x = false.
Proof.
  intros H. unfold is_integer.
  assert (Hf : Zfloor x = 0%Z) by (apply Zfloor_eq; simpl; lra).
  rewrite Hf. destruct (Req_dec_T x 0); [lra | reflexivity].
Qed.

(** ** Sequences in exact arithmetic *)

Lemma INR_length_pos {A : Type} (xs : list A) : xs <> [] -> 0 < INR (length xs).
Proof.
  destruct xs as [|x xs]; [congruence | intros _].
  change (length (x :: xs)) with (S (length xs)). apply lt_0_INR. lia.
Qed.

Lemma fold_fadd_exact xs a :
  fold_left (fadd exact) (map Fin xs) (Fin a) = Fin (a + Rsum xs).
Proof.
  revert a. induction xs as [|x xs IH]; intros a; simpl.
  - f_equal. lra.
  - unfold exact at 2. rewrite IH. f_equal. lra.
Qed.

Lemma fold_fmul_exact xs a :
  fold_left (fmul exact) (map Fin xs) (Fin a) = Fin (a * Rprod xs).
Proof.
  revert a. induction xs as [|x xs IH]; intros a; simpl.
  - f_equal. lra.
  - unfold exact at 2. rewrite IH. f_equal. lra.
Qed.

Lemma np_sum_exact xs : np_sum exact (map Fin xs) = Fin (Rsum xs).
Proof. unfold np_sum. rewrite fold_fadd_exact. f_equal. lra. Qed.

Lemma np_prod_exact xs : np_prod exact (map Fin xs) = Fin (Rprod xs).
Proof. unfold np_prod. rewrite fold_fmul_exact. f_equal. lra. Qed.

Lemma amean_exact xs :
  xs <> [] -> amean exact (map Fin xs) = Fin (arithmetic_mean xs).
Proof.
  intros Hne. unfold amean, arithmetic_mean.
  rewrite np_sum_exact, length_map. simpl.
  rewrite is_zero_false; [reflexivity|].
  pose proof (INR_length_pos xs Hne). lra.
Qed.

Lemma py_truediv_exact (n : nat) :
  n <> O -> py_truediv exact 1 n = Ok (/ INR n).
Proof.
  destruct n as [|n]; [congruence | intros _].
  unfold py_truediv, exact. f_equal. lra.
Qed.

Lemma inv_length_pos {A : Type} (xs : list A) : xs <> [] -> 0 < / INR (length xs).
Proof. intros H. apply Rinv_0_lt_compat, INR_length_pos, H. Qed.

Lemma gmean_exact_unfold xs :
  xs <> [] ->
  gmean exact (map Fin xs) = Ok (fpow exact (Fin (Rprod xs)) (/ INR (length xs))).
Proof.
  intros Hne. unfold gmean. rewrite length_map.
  rewrite py_truediv_exact by (destruct xs; simpl; congruence).
  simpl. rewrite np_prod_exact. reflexivity.
Qed.

(** Positive product: the real power. *)
Lemma gmean_exact_pos xs :
  xs <> [] -> 0 < Rprod xs ->
  gmean exact (map Fin xs) = Ok (Fin (geometric_mean xs)).
Proof.
  intros Hne Hp. rewrite gmean_exact_unfold by assumption.
  unfold fpow. pose proof (inv_length_pos xs Hne) as Hi.
  rewrite is_zero_false by lra.
  rewrite is_pos_true by assumption. reflexivity.
Qed.

(** Zero product: the geometric mean is [0.0]. *)
Lemma gmean_exact_zero xs :
  xs <> [] -> Rprod xs = 0 ->
  gmean exact (map Fin xs) = Ok (Fin 0).
Proof.
  intros Hne Hp. rewrite gmean_exact_unfold by assumption.
  unfold fpow. pose proof (inv_length_pos xs Hne) as Hi.
  rewrite is_zero_false by lra. rewrite Hp.
  rewrite is_pos_false by lra. rewrite is_zero_true by reflexivity.
  rewrite is_pos_true by assumption. reflexivity.
Qed.

(** Negative product of two or more scores: NaN. *)
Lemma gmean_exact_neg xs :
  (2 <= length xs)%nat -> Rprod xs < 0 ->
  gmean exact (map Fin xs) = Ok NaN.
Proof.
  intros Hlen Hp.
  assert (Hne : xs <> []) by (destruct xs; simpl in *; [lia | congruence]).
  rewrite gmean_exact_unfold by assumption.
  unfold fpow. pose proof (inv_length_pos xs Hne) as Hi.
  rewrite is_zero_false by lra.
  rewrite is_pos_false by lra. rewrite is_zero_false by lra.
  rewrite is_integer_frac; [reflexivity|].
  split; [assumption|].
  assert (H2 : 2 <= INR (length xs)) by (apply (le_INR 2); assumption).
  rewrite <- Rinv_1. apply Rinv_lt_contravar; lra.
Qed.

(** A single negative score: [x ** 1.0] is [x]. *)
Lemma gmean_exact_single x : x < 0 -> gmean exact [Fin x] = Ok (Fin x).
Proof.
  intros Hx. change [Fin x] with (map Fin [x]).
  rewrite gmean_exact_unfold by congruence. simpl.
  replace (x * 1) with x by lra. replace (/ 1) with (IZR 1) by (simpl; lra).
  unfold fpow. rewrite is_zero_false by (simpl; lra).
  rewrite is_pos_false by lra. rewrite is_zero_false by lra.
  rewrite is_integer_IZR, ZfloorZ. unfold exact. simpl. f_equal. f_equal. lra.
Qed.

Lemma mean_plus_gmean_exact xs k g :
  xs <> [] ->
  gmean exact (map Fin xs) = Ok (Fin g) ->
  mean_plus_gmean exact (map Fin xs) (Fin k)
  = Ok (Fin (arithmetic_mean xs + k * (g - 4))).
Proof.
  intros Hne Hg. unfold mean_plus_gmean. rewrite Hg, amean_exact by assumption.
  reflexivity.
Qed.

(** ** Roots *)

Lemma Rpower_root (p : R) (n : nat) :
  0 < p -> (0 < n)%nat -> Rpower p (/ INR n) ^ n = p.
Proof.
  intros Hp Hn.
  assert (Hpos : 0 < Rpower p (/ INR n)) by (unfold Rpower; apply exp_pos).
  rewrite <- Rpower_pow by assumption.
  rewrite Rpower_mult.
  assert (Hi : 0 < INR n) by (apply lt_0_INR; assumption).
  replace (/ INR n * INR n) with 1 by (field; lra).
  apply Rpower_1, Hp.
Qed.

Lemma Rpower_of_pow (v : R) (n : nat) :
  0 < v -> (0 < n)%nat -> Rpower (v ^ n) (/ INR n) = v.
Proof.
  intros Hv Hn.
  rewrite <- Rpower_pow by assumption.
  rewrite Rpower_mult.
  assert (Hi : 0 < INR n) by (apply lt_0_INR; assumption).
  replace (INR n * / INR n) with 1 by (field; lra).
  apply Rpower_1, Hv.
Qed.

Lemma pow_lt_compat (a b : R) (n : nat) :
  0 <= a < b -> (0 < n)%nat -> a ^ n < b ^ n.
Proof.
  intros Hab Hn. induction n as [|n IH]; [lia|].
  destruct n as [|n].
  - simpl. lra.
  - assert (IH' : a ^ S n < b ^ S n) by (apply IH; lia).
    assert (Ha : 0 <= a ^ S n) by (apply pow_le; lra).
    change (a ^ S (S n)) with (a * a ^ S n).
    change (b ^ S (S n)) with (b * b ^ S n). nra.
Qed.

(** The non-negative [n]-th root is unique. *)
Lemma root_unique (a b : R) (n : nat) :
  (0 < n)%nat -> 0 <= a -> 0 <= b -> a ^ n = b ^ n -> a = b.
Proof.
  intros Hn Ha Hb Heq.
  destruct (Rtotal_order a b) as [Hlt | [-> | Hgt]]; [exfalso | reflexivity | exfalso].
  - assert (a ^ n < b ^ n) by (apply pow_lt_compat; [lra | lia]). lra.
  - assert (b ^ n < a ^ n) by (apply pow_lt_compat; [lra | lia]). lra.
Qed.

Lemma length_pos_nat {A : Type} (xs : list A) : xs <> [] -> (0 < length xs)%nat.
Proof. destruct xs; simpl; [congruence | lia]. Qed.

(** ** The combiner in exact arithmetic *)

(** The geometric mean the code computes for a non-negative product: the
    non-negative root of the product. *)
Lemma gmean_exact_root xs :
  xs <> [] -> 0 <= Rprod xs ->
  exists G : R,
    0 <= G /\ G ^ length xs = Rprod xs /\ gmean exact (map Fin xs) = Ok (Fin G).
Proof.
  intros Hne [Hp | Hz].
  - exists (geometric_mean xs). split; [|split].
    + left. unfold geometric_mean, Rpower. apply exp_pos.
    + unfold geometric_mean. apply Rpower_root; [assumption | apply length_pos_nat, Hne].
    + apply gmean_exact_pos; assumption.
  - exists 0. split; [lra | split].
    + rewrite <- Hz. apply pow_i, length_pos_nat, Hne.
    + apply gmean_exact_zero; [assumption | congruence].
Qed.

(** With a non-negative product the combiner returns a real number. *)
Lemma mean_plus_gmean_nonneg_product xs k :
  xs <> [] -> 0 <= Rprod xs ->
  exists G : R,
    0 <= G /\ G ^ length xs = Rprod xs /\
    returns (mean_plus_gmean exact (map Fin xs) (Fin k))
            (arithmetic_mean xs + k * (G - 4)).
Proof.
  intros Hne Hp. destruct (gmean_exact_root xs Hne Hp) as (G & HG0 & HGn & HG).
  exists G. split; [assumption | split; [assumption|]].
  apply mean_plus_gmean_exact; assumption.
Qed.

(** With positive product the code agrees with the specification's combiner
    at the neutral point [4]. *)
Lemma mean_plus_gmean_combine xs k :
  xs <> [] -> 0 < Rprod xs ->
  mean_plus_gmean exact (map Fin xs) (Fin k) = Ok (Fin (combine xs k 4)).
Proof.
  intros Hne Hp. unfold combine.
  apply mean_plus_gmean_exact; [assumption|]. apply gmean_exact_pos; assumption.
Qed.

Lemma Rprod_positive xs : all_positive xs -> 0 < Rprod xs.
Proof.
  induction 1 as [|x xs Hx _ IH]; simpl; [lra|].
  apply Rmult_lt_0_compat; assumption.
Qed.

(** The empty call raises, whatever the rounding. *)
Lemma mean_plus_gmean_empty rnd k :
  mean_plus_gmean rnd [] k = Raise ZeroDivisionError.
Proof. reflexivity. Qed.

Lemma mean_plus_gmean_neg_product xs k :
  (2 <= length xs)%nat -> Rprod xs < 0 ->
  mean_plus_gmean exact (map Fin xs) (Fin k) = Ok NaN.
Proof.
  intros Hlen Hp. unfold mean_plus_gmean.
  rewrite gmean_exact_neg by assumption. simpl.
  destruct (amean exact (map Fin xs)); reflexivity.
Qed.

(** Square roots of the squares used in the examples. *)
Lemma Rpower_half_sqr (v : R) : 0 < v -> Rpower (v * v) (/ 2) = v.
Proof.
  intros Hv. rewrite Rpower_sqrt by nra.
  replace (v * v) with (Rsqr v) by reflexivity. apply sqrt_Rsqr. lra.
Qed.

(** The combiner on two equal positive scores. *)
Lemma mean_plus_gmean_pair (v k : R) :
  0 < v ->
  mean_plus_gmean exact [Fin v; Fin v] (Fin k) = Ok (Fin (v + k * (v - 4))).
Proof.
  intros Hv. change [Fin v; Fin v] with (map Fin [v; v]).
  rewrite mean_plus_gmean_combine; [| congruence | simpl; nra].
  unfold combine, arithmetic_mean, geometric_mean. simpl.
  replace (v * (v * 1)) with (v * v) by ring.
  replace (/ (1 + 1)) with (/ 2) by (f_equal; lra).
  rewrite Rpower_half_sqr by assumption. do 2 f_equal. field.
Qed.

Lemma combine_pair (v k c : R) : 0 < v -> combine [v; v] k c = v + k * (v - c).
Proof.
  intros Hv. unfold combine, arithmetic_mean, geometric_mean. simpl.
  replace (v * (v * 1)) with (v * v) by ring.
  replace (/ (1 + 1)) with (/ 2) by (f_equal; lra).
  rewrite Rpower_half_sqr by assumption. field.
Qed.

Lemma Fin_inj (x y : R) : Ok (Fin x) = Ok (Fin y) -> x = y.
Proof. intros H. injection H. trivial. Qed.

(** ** Numbers that binary64 represents exactly *)

Lemma ln_2_pos : 0 < ln 2.
Proof. pose proof ln_lt_2. lra. Qed.

Lemma ln_powerRZ_2 (e : Z) : ln (powerRZ 2 e) = IZR e * ln 2.
Proof. rewrite powerRZ_Rpower by lra. apply ln_Rpower. Qed.

Lemma ilog2_spec (x : R) (e : Z) :
  powerRZ 2 e <= Rabs x < powerRZ 2 (e + 1) -> ilog2 x = e.
Proof.
  intros [Hlo Hhi]. unfold ilog2. apply Zfloor_eq.
  pose proof ln_2_pos as H2.
  assert (Hp : 0 < powerRZ 2 e) by (apply powerRZ_lt; lra).
  assert (Hx : 0 < Rabs x) by lra.
  assert (Hl : ln (powerRZ 2 e) <= ln (Rabs x)).
  { destruct Hlo as [Hlt | Heq]; [left; apply ln_increasing; assumption|].
    right. f_equal. assumption. }
  assert (Hh : ln (Rabs x) < ln (powerRZ 2 (e + 1))) by (apply ln_increasing; assumption).
  rewrite ln_powerRZ_2 in Hl, Hh. rewrite plus_IZR in Hh.
  split.
  - apply Rmult_le_reg_r with (ln 2); [assumption|].
    unfold Rdiv. rewrite Rmult_assoc, Rinv_l by lra. lra.
  - apply Rmult_lt_reg_r with (ln 2); [assumption|].
    unfold Rdiv. rewrite Rmult_assoc, Rinv_l by lra. lra.
Qed.

Lemma rint_spec (y : R) (z : Z) :
  IZR z - 1 / 2 < y < IZR z + 1 / 2 -> rint y = z.
Proof.
  intros [H1 H2]. unfold rint.
  destruct (Rle_lt_dec (IZR z) y) as [Hge | Hlt].
  - assert (Hf : Zfloor y = z) by (apply Zfloor_eq; lra).
    rewrite Hf. destruct (Rlt_dec (y - IZR z) (1 / 2)); [reflexivity | lra].
  - assert (Hf : Zfloor y = (z - 1)%Z) by (apply Zfloor_eq; rewrite minus_IZR; lra).
    rewrite Hf, minus_IZR.
    destruct (Rlt_dec (y - (IZR z - 1)) (1 / 2)); [lra|].
    destruct (Rlt_dec (1 / 2) (y - (IZR z - 1))); [lia | lra].
Qed.

(** The rounding of a number that lies within half a unit in the last place
    of [m * 2^e]. *)
Lemma round64_near (x : R) (m e : Z) :
  powerRZ 2 (e + 52) <= Rabs x < powerRZ 2 (e + 53) ->
  IZR m - 1 / 2 < x / powerRZ 2 e < IZR m + 1 / 2 ->
  round64 x = IZR m * powerRZ 2 e.
Proof.
  intros Hx Hm. unfold round64.
  assert (Hp : 0 < powerRZ 2 (e + 52)) by (apply powerRZ_lt; lra).
  rewrite is_zero_false.
  2:{ intros ->. rewrite Rabs_R0 in Hx. lra. }
  rewrite (ilog2_spec x (e + 52)).
  2:{ replace (e + 52 + 1)%Z with (e + 53)%Z by lia. assumption. }
  replace (e + 52 - 52)%Z with e by lia.
  rewrite (rint_spec _ m Hm). reflexivity.
Qed.

Lemma IZR_pow2 (k : Z) : (0 <= k)%Z -> IZR (2 ^ k) = powerRZ 2 k.
Proof.
  intros Hk. rewrite <- (Z2Nat.id k Hk) at 1.
  rewrite <- pow_IZR, pow_powerRZ, Z2Nat.id by assumption. reflexivity.
Qed.

(** A number with a 53-bit significand is its own rounding. *)
Lemma round64_dyadic (m e : Z) :
  (2 ^ 52 <= Z.abs m < 2 ^ 53)%Z ->
  round64 (IZR m * powerRZ 2 e) = IZR m * powerRZ 2 e.
Proof.
  intros [Hlo Hhi]. apply round64_near.
  - assert (Hp : 0 < powerRZ 2 e) by (apply powerRZ_lt; lra).
    rewrite Rabs_mult, <- abs_IZR, (Rabs_pos_eq (powerRZ 2 e)) by lra.
    rewrite !powerRZ_add by lra.
    rewrite <- (IZR_pow2 52), <- (IZR_pow2 53) by lia.
    apply IZR_le in Hlo. apply IZR_lt in Hhi.
    generalize dependent (IZR (2 ^ 52)). generalize dependent (IZR (2 ^ 53)).
    generalize dependent (IZR (Z.abs m)). generalize dependent (powerRZ 2 e).
    intros p Hp a b Ha c Hc. split; nra.
  - assert (Hp : 0 < powerRZ 2 e) by (apply powerRZ_lt; lra).
    replace (IZR m * powerRZ 2 e / powerRZ 2 e) with (IZR m) by (field; lra).
    lra.
Qed.

Lemma round64_const (c : R) (m e : Z) :
  c = IZR m * powerRZ 2 e -> (2 ^ 52 <= Z.abs m < 2 ^ 53)%Z -> round64 c = c.
Proof. intros -> Hm. apply round64_dyadic, Hm. Qed.

(** Every integer below [2^53] in absolute value is a binary64 number. *)
Lemma round64_int (z : Z) : (Z.abs z < 2 ^ 53)%Z -> round64 (IZR z) = IZR z.
Proof.
  intros Hz. destruct (Z.eq_dec z 0%Z) as [-> | Hnz].
  - unfold round64. rewrite is_zero_true; reflexivity.
  - set (l := Z.log2 (Z.abs z)).
    assert (Habs : (0 < Z.abs z)%Z) by lia.
    destruct (Z.log2_spec (Z.abs z) Habs) as [Hl1 Hl2]. fold l in Hl1, Hl2.
    assert (Hl0 : (0 <= l)%Z) by apply Z.log2_nonneg.
    assert (Hl52 : (l <= 52)%Z).
    { destruct (Z_le_gt_dec l 52) as [|Hgt]; [assumption | exfalso].
      assert ((2 ^ 53 <= 2 ^ l)%Z) by (apply Z.pow_le_mono_r; lia). lia. }
    apply (round64_const _ (z * 2 ^ (52 - l)) (l - 52)).
    + rewrite mult_IZR, IZR_pow2 by lia.
      rewrite Rmult_assoc, <- powerRZ_add by lra.
      replace (52 - l + (l - 52))%Z with 0%Z by lia. simpl. ring.
    + rewrite Z.abs_mul, (Z.abs_eq (2 ^ (52 - l))) by (apply Z.pow_nonneg; lia).
      assert (H52 : (2 ^ 52 = 2 ^ l * 2 ^ (52 - l))%Z).
      { rewrite <- Z.pow_add_r by lia. f_equal. lia. }
      assert (H53 : (2 ^ 53 = 2 ^ Z.succ l * 2 ^ (52 - l))%Z).
      { rewrite <- Z.pow_add_r by lia. f_equal. lia. }
      assert (Hpp : (0 < 2 ^ (52 - l))%Z) by (apply Z.pow_pos_nonneg; lia).
      rewrite H52, H53. split.
      * apply Z.mul_le_mono_nonneg_r; lia.
      * apply Z.mul_lt_mono_pos_r; lia.
Qed.

(** Rounding of the integer expressions of the examples. *)
Ltac round_int :=
  repeat (rewrite <- ?plus_IZR, <- ?mult_IZR, <- ?minus_IZR;
          simpl Z.add; simpl Z.mul; simpl Z.sub;
          rewrite round64_int by reflexivity).

(** An integer [m * 2^k] with a 53-bit [m] is a binary64 number. *)
Lemma round64_shift (z m k : Z) :
  z = (m * 2 ^ k)%Z -> (2 ^ 52 <= Z.abs m < 2 ^ 53)%Z -> (0 <= k)%Z ->
  round64 (IZR z) = IZR z.
Proof.
  intros -> Hm Hk. apply (round64_const _ m k); [|assumption].
  rewrite mult_IZR, IZR_pow2 by assumption. reflexivity.
Qed.

(** An integer within [2^(k-1)] of [m * 2^k], for a 53-bit [m], rounds to
    [m * 2^k]. *)
Lemma round64_int_near (z z' m k : Z) :
  z' = (m * 2 ^ k)%Z -> (0 < k)%Z -> (2 ^ 52 <= m)%Z ->
  (2 ^ 52 * 2 ^ k <= z < 2 ^ 53 * 2 ^ k)%Z ->
  (Z.abs (z - m * 2 ^ k) < 2 ^ (k - 1))%Z ->
  round64 (IZR z) = IZR z'.
Proof.
  intros -> Hk Hm Hz Hd.
  assert (Hpk : (0 < 2 ^ k)%Z) by (apply Z.pow_pos_nonneg; lia).
  assert (Hk2 : (2 ^ k = 2 * 2 ^ (k - 1))%Z).
  { rewrite <- Z.pow_succ_r by lia. f_equal. lia. }
  rewrite (round64_near _ m k).
  - rewrite mult_IZR, IZR_pow2 by lia. reflexivity.
  - rewrite <- !IZR_pow2 by lia. rewrite <- abs_IZR.
    rewrite !Z.pow_add_r by lia. rewrite Z.abs_eq by lia.
    split; [apply IZR_le | apply IZR_lt]; lia.
  - rewrite <- IZR_pow2 by lia.
    assert (Hp : 0 < IZR (2 ^ k)) by (apply IZR_lt; assumption).
    assert (H1 : IZR (2 * (z - m * 2 ^ k)) < IZR (2 ^ k)) by (apply IZR_lt; lia).
    assert (H2 : IZR (- 2 ^ k) < IZR (2 * (z - m * 2 ^ k))) by (apply IZR_lt; lia).
    rewrite mult_IZR, minus_IZR, mult_IZR in H1, H2. rewrite opp_IZR in H2.
    split.
    + apply Rmult_lt_reg_r with (IZR (2 ^ k)); [assumption|]. unfold Rdiv.
      rewrite Rmult_assoc, Rinv_l by lra. lra.
    + apply Rmult_lt_reg_r with (IZR (2 ^ k)); [assumption|]. unfold Rdiv.
      rewrite Rmult_assoc, Rinv_l by lra. lra.
Qed.

(** ** Bounds on the logarithm of 2 and on the exponential *)

Lemma ln_2_lt_1 : ln 2 < 1.
Proof.
  apply exp_lt_inv. rewrite exp_ln by lra.
  pose proof (exp_ineq1 1). lra.
Qed.

Lemma exp_fifth : exp (1 / 5) < 5 / 4.
Proof.
  assert (H : 1 + - (1 / 5) < exp (- (1 / 5))) by (apply exp_ineq1; lra).
  rewrite exp_Ropp in H.
  pose proof (exp_pos (1 / 5)) as Hp.
  apply Rmult_lt_reg_r with (/ exp (1 / 5)); [apply Rinv_0_lt_compat, Hp|].
  rewrite Rinv_r by lra. lra.
Qed.

Lemma ln_2_gt : 3 / 5 < ln 2.
Proof.
  apply exp_lt_inv. rewrite exp_ln by lra.
  replace (3 / 5) with (1 / 5 + (1 / 5 + 1 / 5)) by lra.
  rewrite !exp_plus.
  pose proof exp_fifth as H. pose proof (exp_pos (1 / 5)) as Hp.
  assert (H2 : exp (1 / 5) * exp (1 / 5) < 25 / 16) by nra.
  nra.
Qed.

Lemma exp_neg_bounds (u : R) :
  0 < u -> 1 - u < exp (- u) /\ exp (- u) * (1 + u) < 1.
Proof.
  intros Hu. split.
  - pose proof (exp_ineq1 (- u)). lra.
  - rewrite exp_Ropp. pose proof (exp_ineq1 u) as H. pose proof (exp_pos u) as Hp.
    apply Rmult_lt_reg_r with (exp u); [assumption|].
    rewrite Rmult_assoc, (Rmult_comm (1 + u)), <- Rmult_assoc, Rinv_l by lra.
    lra.
Qed.

(** ** The rounding error of binary64 *)

Lemma Rabs_bound_inv (x b : R) : Rabs x <= b -> - b <= x <= b.
Proof.
  intros H. unfold Rabs in H. destruct (Rcase_abs x); lra.
Qed.

Lemma exp_le_compat (x y : R) : x <= y -> exp x <= exp y.
Proof.
  intros [Hlt | ->]; [left; apply exp_increasing, Hlt | right; reflexivity].
Qed.

Lemma powerRZ_2_exp (e : Z) : powerRZ 2 e = exp (IZR e * ln 2).
Proof. rewrite powerRZ_Rpower by lra. reflexivity. Qed.

Lemma ilog2_bounds (x : R) :
  x <> 0 -> powerRZ 2 (ilog2 x) <= Rabs x < powerRZ 2 (ilog2 x + 1).
Proof.
  intros Hx. pose proof (Rabs_pos_lt x Hx) as Hpos.
  pose proof ln_2_pos as H2.
  unfold ilog2. set (L := ln (Rabs x) / ln 2).
  destruct (Zfloor_bound L) as [Hlo Hhi].
  assert (HL : L * ln 2 = ln (Rabs x)) by (unfold L; field; lra).
  rewrite !powerRZ_2_exp, plus_IZR.
  rewrite <- (exp_ln (Rabs x) Hpos) at 1 2. rewrite <- HL. split.
  - apply exp_le_compat. apply Rmult_le_compat_r; lra.
  - apply exp_increasing. apply Rmult_lt_compat_r; lra.
Qed.

Lemma rint_error (y : R) : Rabs (IZR (rint y) - y) <= 1 / 2.
Proof.
  unfold rint. destruct (Zfloor_bound y) as [Hlo Hhi].
  apply Rabs_le.
  destruct (Rlt_dec (y - IZR (Zfloor y)) (1 / 2)); [lra|].
  destruct (Rlt_dec (1 / 2) (y - IZR (Zfloor y))); [rewrite plus_IZR; lra|].
  destruct (Z.even (Zfloor y)); [lra | rewrite plus_IZR; lra].
Qed.

(** The relative error of a rounding is at most [2^-53]. *)
Lemma round64_error (x : R) : Rabs (round64 x - x) <= Rabs x * / 2 ^ 53.
Proof.
  unfold round64. destruct (Req_dec_T x 0) as [-> | Hx].
  - rewrite is_zero_true by reflexivity.
    replace (0 - 0) with 0 by ring. rewrite Rabs_R0. lra.
  - rewrite is_zero_false by assumption.
    destruct (ilog2_bounds x Hx) as [Hlo _].
    set (e := ilog2 x) in *. set (q := powerRZ 2 (e - 52)).
    assert (Hq : 0 < q) by (apply powerRZ_lt; lra).
    assert (Hqe : powerRZ 2 e = q * 2 ^ 52).
    { unfold q. rewrite (pow_powerRZ 2 52), <- powerRZ_add by lra.
      f_equal. lia. }
    replace (IZR (rint (x / q)) * q - x) with ((IZR (rint (x / q)) - x / q) * q)
      by (field; lra).
    rewrite Rabs_mult, (Rabs_pos_eq q) by lra.
    pose proof (rint_error (x / q)) as Hr.
    assert (H53 : / 2 ^ 53 = / 2 ^ 52 * / 2) by (simpl; field).
    assert (H52 : 0 < 2 ^ 52) by (apply pow_lt; lra).
    transitivity (1 / 2 * q); [apply Rmult_le_compat_r; lra|].
    transitivity (powerRZ 2 e * / 2 ^ 53).
    + rewrite Hqe, H53. right. field; lra.
    + apply Rmult_le_compat_r; [|assumption].
      left. apply Rinv_0_lt_compat, pow_lt. lra.
Qed.

Lemma round64_abs_error (x b : R) :
  Rabs x <= b -> - (b * / 2 ^ 53) <= round64 x - x <= b * / 2 ^ 53.
Proof.
  intros Hb. apply Rabs_bound_inv.
  transitivity (Rabs x * / 2 ^ 53); [apply round64_error|].
  apply Rmult_le_compat_r; [|assumption].
  left. apply Rinv_0_lt_compat, pow_lt. lra.
Qed.

(** The accumulated rounding error of [a + 1 * (g - 4)]. *)
Lemma combine64_error (A G : R) :
  - 16 <= A <= 16 -> 0 <= G <= 16 ->
  Rabs (round64 (round64 A + round64 (1 * round64 (round64 G - 4)))
        - (A + (G - 4))) <= / 10 ^ 12.
Proof.
  intros HA HG.
  assert (Hu : / 2 ^ 53 = / 9007199254740992) by (f_equal; simpl; lra).
  pose proof (round64_abs_error A 16 ltac:(apply Rabs_le; lra)) as Ha.
  set (a := round64 A) in *.
  pose proof (round64_abs_error G 16 ltac:(apply Rabs_le; lra)) as Hg.
  set (g := round64 G) in *.
  rewrite Hu in Ha, Hg.
  pose proof (round64_abs_error (g - 4) 32 ltac:(apply Rabs_le; lra)) as H1.
  set (d1 := round64 (g - 4)) in *. rewrite Hu in H1.
  pose proof (round64_abs_error (1 * d1) 32 ltac:(apply Rabs_le; lra)) as H2.
  set (d2 := round64 (1 * d1)) in *. rewrite Hu in H2.
  pose proof (round64_abs_error (a + d2) 64 ltac:(apply Rabs_le; lra)) as H3.
  set (r := round64 (a + d2)) in *. rewrite Hu in H3.
  apply Rabs_le. simpl. lra.
Qed.

(** ** Integer scores in binary64 *)

Lemma Zsum_nonneg zs : Forall (fun z => (0 < z)%Z) zs -> (0 <= Zsum zs)%Z.
Proof.
  induction 1 as [|z zs Hz _ IH]; [simpl; lia|].
  change (Zsum (z :: zs)) with (z + Zsum zs)%Z. lia.
Qed.

Lemma Zprod_pos zs : Forall (fun z => (0 < z)%Z) zs -> (1 <= Zprod zs)%Z.
Proof.
  induction 1 as [|z zs Hz _ IH]; [simpl; lia|].
  change (Zprod (z :: zs)) with (z * Zprod zs)%Z. nia.
Qed.

(** The partial sums of small scores are integers below [2^53]: no
    addition rounds. *)
Lemma fold_fadd_int zs (a : Z) :
  (0 <= a)%Z -> Forall (fun z => (0 < z)%Z) zs -> (a + Zsum zs < 2 ^ 53)%Z ->
  fold_left (fadd round64) (int_scores zs) (Fin (IZR a)) = Fin (IZR (a + Zsum zs)).
Proof.
  intros Ha Hpos. revert a Ha.
  induction Hpos as [|z zs Hz Hzs IH]; intros a Ha Hlt.
  - simpl. rewrite Z.add_0_r. reflexivity.
  - change (Zsum (z :: zs)) with (z + Zsum zs)%Z in *.
    pose proof (Zsum_nonneg zs Hzs) as Hs.
    change (int_scores (z :: zs)) with (Fin (IZR z) :: int_scores zs).
    cbn [fold_left fadd].
    rewrite <- plus_IZR, round64_int by lia.
    rewrite IH by lia. do 2 f_equal. lia.
Qed.

Lemma fold_fmul_int zs (a : Z) :
  (1 <= a)%Z -> Forall (fun z => (0 < z)%Z) zs -> (a * Zprod zs < 2 ^ 53)%Z ->
  fold_left (fmul round64) (int_scores zs) (Fin (IZR a)) = Fin (IZR (a * Zprod zs)).
Proof.
  intros Ha Hpos. revert a Ha.
  induction Hpos as [|z zs Hz Hzs IH]; intros a Ha Hlt.
  - simpl. rewrite Z.mul_1_r. reflexivity.
  - change (Zprod (z :: zs)) with (z * Zprod zs)%Z in *.
    pose proof (Zprod_pos zs Hzs) as Hp.
    change (int_scores (z :: zs)) with (Fin (IZR z) :: int_scores zs).
    cbn [fold_left fmul].
    rewrite <- mult_IZR, round64_int by nia.
    rewrite IH by nia. do 2 f_equal. lia.
Qed.

Lemma np_sum_int zs :
  small_scores zs -> np_sum round64 (int_scores zs) = Fin (IZR (Zsum zs)).
Proof.
  intros (Hpos & Hs & _). unfold np_sum.
  apply (fold_fadd_int zs 0); [lia | assumption | lia].
Qed.

Lemma np_prod_int zs :
  small_scores zs -> np_prod round64 (int_scores zs) = Fin (IZR (Zprod zs)).
Proof.
  intros (Hpos & _ & Hp). unfold np_prod.
  rewrite (fold_fmul_int zs 1); [do 2 f_equal; lia | lia | assumption | lia].
Qed.

Lemma Zsum_Permutation zs zs' : Permutation zs zs' -> Zsum zs = Zsum zs'.
Proof.
  induction 1 as [| x xs ys _ IH | x y xs | xs ys ws _ IH1 _ IH2].
  - reflexivity.
  - change (x + Zsum xs = x + Zsum ys)%Z. rewrite IH. reflexivity.
  - change (y + (x + Zsum xs) = x + (y + Zsum xs))%Z. lia.
  - congruence.
Qed.

Lemma Zprod_Permutation zs zs' : Permutation zs zs' -> Zprod zs = Zprod zs'.
Proof.
  induction 1 as [| x xs ys _ IH | x y xs | xs ys ws _ IH1 _ IH2].
  - reflexivity.
  - change (x * Zprod xs = x * Zprod ys)%Z. rewrite IH. reflexivity.
  - change (y * (x * Zprod xs) = x * (y * Zprod xs))%Z. lia.
  - congruence.
Qed.

Lemma small_scores_Permutation zs zs' :
  Permutation zs zs' -> small_scores zs -> small_scores zs'.
Proof.
  intros HP (Hpos & Hs & Hp). split; [|split].
  - eapply Permutation_Forall; eassumption.
  - rewrite <- (Zsum_Permutation zs zs' HP). assumption.
  - rewrite <- (Zprod_Permutation zs zs' HP). assumption.
Qed.

(** In binary64 the combiner on small integer scores depends on them only
    through their sum, their product and their number. *)
Lemma mean_plus_gmean_int_unfold zs k :
  small_scores zs ->
  mean_plus_gmean round64 (int_scores zs) k =
  (let! g := (let! e := py_truediv round64 1 (length zs) in
              Ok (fpow round64 (Fin (IZR (Zprod zs))) e)) in
   Ok (fadd round64 (fdiv round64 (Fin (IZR (Zsum zs))) (Fin (INR (length zs))))
                    (fmul round64 k (fsub round64 g (Fin 4))))).
Proof.
  intros Hs. unfold mean_plus_gmean, amean, gmean.
  rewrite np_sum_int, np_prod_int by assumption.
  unfold int_scores. rewrite length_map. reflexivity.
Qed.

Lemma mean_plus_gmean_int_Permutation zs zs' k :
  small_scores zs -> Permutation zs zs' ->
  mean_plus_gmean round64 (int_scores zs) k
  = mean_plus_gmean round64 (int_scores zs') k.
Proof.
  intros Hs HP.
  rewrite !mean_plus_gmean_int_unfold
    by (try assumption; eapply small_scores_Permutation; eassumption).
  rewrite (Zsum_Permutation zs zs' HP), (Zprod_Permutation zs zs' HP).
  rewrite (Permutation_length HP). reflexivity.
Qed.

(** ** Integer scores on the 64-bit path *)

Lemma wrap_small (z : Z) : (- 2 ^ 63 <= z < 2 ^ 63)%Z -> Int64.wrap z = z.
Proof.
  intros Hz. unfold Int64.wrap.
  rewrite Z.mod_small by lia. lia.
Qed.

Lemma fold_sum_int64 zs (a : Z) :
  (0 <= a)%Z -> Forall (fun z => (0 < z)%Z) zs -> (a + Zsum zs < 2 ^ 53)%Z ->
  fold_left (fun a z => Int64.wrap (a + z)) zs a = (a + Zsum zs)%Z.
Proof.
  intros Ha Hpos. revert a Ha.
  induction Hpos as [|z zs Hz Hzs IH]; intros a Ha Hlt.
  - simpl. lia.
  - change (Zsum (z :: zs)) with (z + Zsum zs)%Z in *.
    pose proof (Zsum_nonneg zs Hzs) as Hs.
    cbn [fold_left]. rewrite wrap_small by lia.
    rewrite IH by lia. lia.
Qed.

Lemma fold_prod_int64 zs (a : Z) :
  (1 <= a)%Z -> Forall (fun z => (0 < z)%Z) zs -> (a * Zprod zs < 2 ^ 53)%Z ->
  fold_left (fun a z => Int64.wrap (a * z)) zs a = (a * Zprod zs)%Z.
Proof.
  intros Ha Hpos. revert a Ha.
  induction Hpos as [|z zs Hz Hzs IH]; intros a Ha Hlt.
  - simpl. lia.
  - change (Zprod (z :: zs)) with (z * Zprod zs)%Z in *.
    pose proof (Zprod_pos zs Hzs) as Hp.
    cbn [fold_left]. rewrite wrap_small by nia.
    rewrite IH by nia. lia.
Qed.

(** ** C1: the formula of the combiner *)

(** C1, as stated, fails: the neutral point is not an input.  On the scores
    [5, 5] with [k = 1] the code returns [6]; the formula with [c = 5]
    gives [5].  And a negative product of two scores gives NaN, not a real
    number. *)
Lemma C1_counterexample :
  mean_plus_gmean exact [Fin 5; Fin 5] (Fin 1) = Ok (Fin 6) /\
  combine [5; 5] 1 5 = 5 /\
  ~ returns (mean_plus_gmean exact (map Fin [5; 5]) (Fin 1)) (combine [5; 5] 1 5) /\
  mean_plus_gmean exact [Fin (-3); Fin 5] (Fin 1) = Ok NaN.
Proof.
  assert (H6 : mean_plus_gmean exact [Fin 5; Fin 5] (Fin 1) = Ok (Fin 6)).
  { rewrite mean_plus_gmean_pair by lra. do 2 f_equal. lra. }
  assert (H5 : combine [5; 5] 1 5 = 5).
  { rewrite combine_pair by lra. lra. }
  repeat split.
  - exact H6.
  - exact H5.
  - unfold returns. simpl map. rewrite H6, H5. intros H. apply Fin_inj in H. lra.
  - change [Fin (-3); Fin 5] with (map Fin [-3; 5]).
    apply mean_plus_gmean_neg_product; simpl; [lia | lra].
Qed.

(** C1 (amended): in exact real arithmetic, for every nonempty sequence of
    real scores whose product is non-negative, and every real [k], the
    combiner returns
    [A + k * (G - 4)], where [A] is the arithmetic mean [sum / count] and [G]
    is the geometric mean, the non-negative real whose [count]-th power is
    the product; for a positive product this is [combine scores k 4]. *)
Theorem C1_combiner_formula (xs : list R) (k : R) :
  xs <> [] -> 0 <= Rprod xs ->
  (exists G : R,
      0 <= G /\ G ^ length xs = Rprod xs /\
      returns (mean_plus_gmean exact (map Fin xs) (Fin k))
              (Rsum xs / INR (length xs) + k * (G - 4))) /\
  (0 < Rprod xs ->
   returns (mean_plus_gmean exact (map Fin xs) (Fin k)) (combine xs k 4)).
Proof.
  intros Hne Hp. split.
  - apply mean_plus_gmean_nonneg_product; assumption.
  - intros Hpos. apply mean_plus_gmean_combine; assumption.
Qed.

Lemma C1_witness :
  (exists G : R,
      0 <= G /\ G ^ length [9; 12] = Rprod [9; 12] /\
      returns (mean_plus_gmean exact (map Fin [9; 12]) (Fin 1))
              (Rsum [9; 12] / INR (length [9; 12]) + 1 * (G - 4))) /\
  (0 < Rprod [9; 12] ->
   returns (mean_plus_gmean exact (map Fin [9; 12]) (Fin 1)) (combine [9; 12] 1 4)).
Proof.
  apply (C1_combiner_formula [9; 12] 1); [discriminate | simpl; lra].
Defined.

(** ** C2: rejection of invalid input *)

(** C2, as stated, fails: a zero score is accepted, and a negative product
    gives NaN without any error. *)
Lemma C2_counterexample :
  mean_plus_gmean exact [Fin 0; Fin 5] (Fin 1) = Ok (Fin (- 3 / 2)) /\
  mean_plus_gmean exact [Fin (-3); Fin 5] (Fin 1) = Ok NaN.
Proof.
  split.
  - change [Fin 0; Fin 5] with (map Fin [0; 5]).
    rewrite (mean_plus_gmean_exact [0; 5] 1 0).
    + unfold arithmetic_mean. simpl. do 2 f_equal. lra.
    + discriminate.
    + apply gmean_exact_zero; [discriminate | simpl; lra].
  - change [Fin (-3); Fin 5] with (map Fin [-3; 5]).
    apply mean_plus_gmean_neg_product; simpl; [lia | lra].
Qed.

Lemma mean_plus_gmean_single (x k : R) :
  returns (mean_plus_gmean exact [Fin x] (Fin k)) (x + k * (x - 4)).
Proof.
  unfold returns. change [Fin x] with (map Fin [x]).
  assert (HA : arithmetic_mean [x] = x).
  { unfold arithmetic_mean. simpl. field. }
  destruct (Rtotal_order x 0) as [Hneg | [-> | Hpos]].
  - rewrite (mean_plus_gmean_exact [x] k x); [rewrite HA; reflexivity | discriminate |].
    apply gmean_exact_single, Hneg.
  - rewrite (mean_plus_gmean_exact [0] k 0); [rewrite HA; reflexivity | discriminate |].
    apply gmean_exact_zero; [discriminate | simpl; lra].
  - rewrite (mean_plus_gmean_exact [x] k x); [rewrite HA; reflexivity | discriminate |].
    rewrite gmean_exact_pos; [| discriminate | simpl; lra].
    unfold geometric_mean. simpl. do 2 f_equal.
    replace (x * 1) with x by ring. replace (/ 1) with 1 by lra.
    apply Rpower_1, Hpos.
Qed.

(** C2 (amended): the combiner validates nothing.  The empty call fails, with
    the [ZeroDivisionError] of [1/n], whatever the rounding; a call with
    zero or negative scores is not rejected: in exact real arithmetic it
    returns a real number when the product of the scores is non-negative or
    there is a single score, and it returns NaN when the product of two or
    more scores is negative. *)
Theorem C2_no_rejection :
  (forall (rnd : R -> R) (k : float64),
      mean_plus_gmean rnd [] k = Raise ZeroDivisionError) /\
  (forall (xs : list R) (k : R),
      xs <> [] -> 0 <= Rprod xs ->
      exists r : R, returns (mean_plus_gmean exact (map Fin xs) (Fin k)) r) /\
  (forall x k : R,
      returns (mean_plus_gmean exact [Fin x] (Fin k)) (x + k * (x - 4))) /\
  (forall (xs : list R) (k : R),
      (2 <= length xs)%nat -> Rprod xs < 0 ->
      mean_plus_gmean exact (map Fin xs) (Fin k) = Ok NaN).
Proof.
  repeat split.
  - intros xs k Hne Hp.
    destruct (mean_plus_gmean_nonneg_product xs k Hne Hp) as (G & _ & _ & HG).
    eexists. exact HG.
  - apply mean_plus_gmean_single.
  - apply mean_plus_gmean_neg_product.
Qed.

Lemma C2_witness :
  (exists r : R, returns (mean_plus_gmean exact (map Fin [-2; -8]) (Fin 1)) r) /\
  mean_plus_gmean exact (map Fin [-2; 8]) (Fin 1) = Ok NaN.
Proof.
  split.
  - apply (proj1 (proj2 C2_no_rejection) [-2; -8] 1); [discriminate | simpl; lra].
  - apply (proj2 (proj2 (proj2 C2_no_rejection)) [-2; 8] 1); simpl; [lia | lra].
Defined.

(** ** C3: the interface of the combiner *)

Lemma call_no_keyword rnd (args : list float64) :
  call_mean_plus_gmean rnd args ∅ = mean_plus_gmean rnd args (Fin 1).
Proof.
  unfold call_mean_plus_gmean. rewrite decide_True by set_solver.
  rewrite lookup_empty. reflexivity.
Qed.

Lemma call_keyword_k rnd (args : list float64) (k : float64) :
  call_mean_plus_gmean rnd args {[ "k"%string := k ]} = mean_plus_gmean rnd args k.
Proof.
  unfold call_mean_plus_gmean. rewrite decide_True by set_solver.
  rewrite lookup_singleton_eq. reflexivity.
Qed.

Lemma call_other_keyword rnd (args : list float64) (kwargs : gmap string float64)
    (key : string) :
  key <> "k"%string -> is_Some (kwargs !! key) ->
  call_mean_plus_gmean rnd args kwargs = Raise TypeError.
Proof.
  intros Hkey Hin. unfold call_mean_plus_gmean.
  rewrite decide_False; [reflexivity|].
  intros Hsub. apply elem_of_dom in Hin. set_solver.
Qed.

(** C3, as stated, fails: the neutral point [c] is not a parameter of the
    callable; passing it is a [TypeError]. *)
Lemma C3_counterexample :
  call_mean_plus_gmean exact [Fin 4; Fin 4]
    {[ "k"%string := Fin 1; "c"%string := Fin 4 ]} = Raise TypeError.
Proof.
  apply (call_other_keyword exact _ _ "c"%string); [discriminate|].
  rewrite lookup_insert_ne by discriminate.
  rewrite lookup_singleton_eq. eexists. reflexivity.
Qed.

(** C3 (amended): the combiner is exposed as a single callable taking a
    variable-length list of numeric scores plus one caller-supplied named
    parameter, the weight [k], with default [1]; the neutral point is the
    constant [4] of the body and is not an input of the call: any other
    keyword, [c] included, is rejected.  Its contract is
    [mean_plus_gmean(scores, k) -> real], equal in exact real arithmetic to
    [combine scores k 4] on scores with a positive product. *)
Theorem C3_interface :
  (forall (rnd : R -> R) (args : list float64),
      call_mean_plus_gmean rnd args ∅ = mean_plus_gmean rnd args (Fin 1)) /\
  (forall (rnd : R -> R) (args : list float64) (k : float64),
      call_mean_plus_gmean rnd args {[ "k"%string := k ]}
      = mean_plus_gmean rnd args k) /\
  (forall (rnd : R -> R) (args : list float64) (kwargs : gmap string float64)
          (key : string),
      key <> "k"%string -> is_Some (kwargs !! key) ->
      call_mean_plus_gmean rnd args kwargs = Raise TypeError) /\
  (forall (xs : list R) (k : R),
      xs <> [] -> 0 < Rprod xs ->
      call_mean_plus_gmean exact (map Fin xs) {[ "k"%string := Fin k ]}
      = Ok (Fin (combine xs k 4))).
Proof.
  split; [exact call_no_keyword | split; [exact call_keyword_k | split]].
  - exact call_other_keyword.
  - intros xs k Hne Hp. rewrite call_keyword_k.
    apply mean_plus_gmean_combine; assumption.
Qed.

Lemma C3_witness :
  call_mean_plus_gmean exact [Fin 4] {[ "c"%string := Fin 4 ]} = Raise TypeError /\
  call_mean_plus_gmean exact (map Fin [9; 12]) {[ "k"%string := Fin 2 ]}
  = Ok (Fin (combine [9; 12] 2 4)).
Proof.
  split.
  - apply (proj1 (proj2 (proj2 C3_interface)) exact [Fin 4] _ "c"%string);
      [discriminate | rewrite lookup_singleton_eq; eexists; reflexivity].
  - apply (proj2 (proj2 (proj2 C3_interface)) [9; 12] 2); [discriminate | simpl; lra].
Defined.

(** ** C4: equal scores and the neutral point *)

Lemma Rsum_repeat (v : R) (n : nat) : Rsum (repeat v n) = INR n * v.
Proof.
  induction n as [|n IH]; [simpl; lra|].
  rewrite S_INR. change (Rsum (repeat v (S n))) with (v + Rsum (repeat v n)).
  rewrite IH. ring.
Qed.

Lemma Rprod_repeat (v : R) (n : nat) : Rprod (repeat v n) = v ^ n.
Proof.
  induction n as [|n IH]; [reflexivity|].
  change (Rprod (repeat v (S n))) with (v * Rprod (repeat v n)).
  rewrite IH. reflexivity.
Qed.

Lemma mean_plus_gmean_repeat (n : nat) (v k : R) :
  (0 < n)%nat -> 0 < v ->
  mean_plus_gmean exact (map Fin (repeat v n)) (Fin k) = Ok (Fin (v + k * (v - 4))).
Proof.
  intros Hn Hv.
  assert (Hne : repeat v n <> []) by (destruct n; simpl; [lia | discriminate]).
  assert (Hi : 0 < INR n) by (apply lt_0_INR; assumption).
  rewrite mean_plus_gmean_combine;
    [| assumption | rewrite Rprod_repeat; apply pow_lt; assumption].
  unfold combine, arithmetic_mean, geometric_mean.
  rewrite Rsum_repeat, Rprod_repeat, repeat_length.
  rewrite Rpower_of_pow by assumption. do 2 f_equal. field. lra.
Qed.

(** C4, as stated, fails for every neutral point other than [4]: on the
    scores [3, 3] with [k = 1] and [c = 3] the claimed result is [3], the
    code returns [2]. *)
Lemma C4_counterexample :
  mean_plus_gmean exact (map Fin (repeat 3 2)) (Fin 1) = Ok (Fin 2) /\
  ~ returns (mean_plus_gmean exact (map Fin (repeat 3 2)) (Fin 1)) (3 + 1 * (3 - 3)).
Proof.
  assert (H2 : mean_plus_gmean exact (map Fin (repeat 3 2)) (Fin 1) = Ok (Fin 2)).
  { rewrite mean_plus_gmean_repeat by (try lia; lra). do 2 f_equal. lra. }
  split; [exact H2|].
  unfold returns. rewrite H2. intros H. apply Fin_inj in H. lra.
Qed.

(** C4 (amended): in exact arithmetic, for every nonempty sequence whose
    elements all equal the same positive value [v], and for every [k], the
    combined result equals [v + k * (v - 4)]; in particular, if every score
    equals [4] the result equals [4] for any [k]. *)
Theorem C4_equal_scores (n : nat) (v k : R) :
  (0 < n)%nat -> 0 < v ->
  returns (mean_plus_gmean exact (map Fin (repeat v n)) (Fin k)) (v + k * (v - 4)) /\
  (v = 4 -> returns (mean_plus_gmean exact (map Fin (repeat v n)) (Fin k)) 4).
Proof.
  intros Hn Hv. unfold returns. rewrite mean_plus_gmean_repeat by assumption.
  split; [reflexivity|]. intros ->. do 2 f_equal. ring.
Qed.

Lemma C4_witness :
  returns (mean_plus_gmean exact (map Fin (repeat 4 3)) (Fin 7)) (4 + 7 * (4 - 4)) /\
  (4 = 4 -> returns (mean_plus_gmean exact (map Fin (repeat 4 3)) (Fin 7)) 4).
Proof. apply (C4_equal_scores 3 4 7); [lia | lra]. Defined.

(** ** The recorded output on [4, 4, 4] *)

Lemma third64_value : third64 = 6004799503160661 / 18014398509481984.
Proof. unfold third64. simpl powerRZ. lra. Qed.

(** The Python expression [1/3]. *)
Lemma py_truediv_third : py_truediv round64 1 3 = Ok third64.
Proof.
  unfold py_truediv. f_equal. unfold third64.
  apply round64_near; simpl INR; simpl powerRZ.
  - rewrite Rabs_pos_eq by lra. lra.
  - lra.
Qed.

(** [64 ** (1/3)] with the rounded exponent, before rounding the result. *)
Lemma Rpower_64_third64 :
  Rpower 64 third64 = 4 * exp (- (ln 2 * / 2 ^ 53)).
Proof.
  unfold Rpower.
  replace 64 with (2 ^ 6) by (simpl; lra).
  rewrite ln_pow by lra.
  replace (third64 * (INR 6 * ln 2)) with (ln 2 + (ln 2 + - (ln 2 * / 2 ^ 53))).
  - rewrite !exp_plus, exp_ln by lra. ring.
  - rewrite third64_value. simpl. lra.
Qed.

Lemma Rpower_64_third64_bounds :
  4 - / 2 ^ 51 < Rpower 64 third64 < 4 - / 2 ^ 52.
Proof.
  rewrite Rpower_64_third64.
  pose proof ln_2_lt_1 as Hlt. pose proof ln_2_gt as Hgt.
  set (c := / 2 ^ 53).
  assert (Hc : c = / 9007199254740992) by (unfold c; f_equal; simpl; lra).
  assert (Hc0 : 0 < c) by (rewrite Hc; lra).
  assert (Hu : 0 < ln 2 * c) by (apply Rmult_lt_0_compat; lra).
  destruct (exp_neg_bounds (ln 2 * c) Hu) as [Hlo Hhi].
  pose proof (exp_pos (- (ln 2 * c))) as Hp.
  set (T := exp (- (ln 2 * c))) in *.
  assert (Hu1 : ln 2 * c < c) by nra.
  assert (Hu2 : 3 / 5 * c < ln 2 * c) by nra.
  assert (Hhi' : T * (1 + 3 / 5 * c) < 1) by nra.
  replace (/ 2 ^ 51) with (4 * c) by (rewrite Hc; simpl; lra).
  replace (/ 2 ^ 52) with (2 * c) by (rewrite Hc; simpl; lra).
  rewrite Hc in *. split; lra.
Qed.

(** [64 ** (1/3)] in binary64 is the number just below [4], printed as
    [3.9999999999999996]. *)
Lemma round64_Rpower_64_third64 : round64 (Rpower 64 third64) = 4 - / 2 ^ 51.
Proof.
  destruct Rpower_64_third64_bounds as [Hlo Hhi].
  assert (H51 : / 2 ^ 51 = / 2251799813685248) by (f_equal; simpl; lra).
  assert (H52 : / 2 ^ 52 = / 4503599627370496) by (f_equal; simpl; lra).
  rewrite H51 in *. rewrite H52 in Hhi.
  rewrite (round64_near _ 9007199254740991 (-51)).
  - simpl powerRZ. lra.
  - simpl powerRZ. rewrite Rabs_pos_eq by lra. lra.
  - simpl powerRZ. lra.
Qed.

Lemma np_sum_444 : np_sum round64 [Fin 4; Fin 4; Fin 4] = Fin 12.
Proof. unfold np_sum. simpl. round_int. reflexivity. Qed.

Lemma np_prod_444 : np_prod round64 [Fin 4; Fin 4; Fin 4] = Fin 64.
Proof. unfold np_prod. simpl. round_int. reflexivity. Qed.

Lemma amean_444 : amean round64 [Fin 4; Fin 4; Fin 4] = Fin 4.
Proof.
  unfold amean. rewrite np_sum_444. simpl length. unfold fdiv.
  rewrite is_zero_false by (simpl; lra).
  replace (12 / INR 3) with 4 by (simpl; lra).
  round_int. reflexivity.
Qed.

Lemma gmean_444 : gmean round64 [Fin 4; Fin 4; Fin 4] = Ok (Fin (4 - / 2 ^ 51)).
Proof.
  unfold gmean. simpl length. rewrite py_truediv_third, np_prod_444. unfold bind.
  unfold fpow. rewrite is_zero_false by (rewrite third64_value; lra).
  rewrite is_pos_true by lra.
  rewrite round64_Rpower_64_third64. reflexivity.
Qed.

(** In binary64 the call [mean_plus_gmean(4, 4, 4)] returns the number just
    below [4], as the notebook records ([3.9999999999999996]). *)
Lemma mean_plus_gmean_444 :
  mean_plus_gmean round64 [Fin 4; Fin 4; Fin 4] (Fin 1) = Ok (Fin (4 - / 2 ^ 51)).
Proof.
  unfold mean_plus_gmean. rewrite gmean_444, amean_444. unfold bind.
  unfold fsub, fmul, fadd. do 2 f_equal.
  assert (H51 : / 2 ^ 51 = / 2251799813685248) by (f_equal; simpl; lra).
  rewrite H51.
  replace (4 - / 2251799813685248 - 4) with (- / 2251799813685248) by lra.
  rewrite (round64_const (- / 2251799813685248) (-4503599627370496) (-103))
    by (first [ simpl powerRZ; lra | simpl; lia ]).
  replace (1 * - / 2251799813685248) with (- / 2251799813685248) by lra.
  rewrite (round64_const (- / 2251799813685248) (-4503599627370496) (-103))
    by (first [ simpl powerRZ; lra | simpl; lia ]).
  replace (4 + - / 2251799813685248) with (4 - / 2251799813685248) by lra.
  apply (round64_const _ 9007199254740991 (-51));
    first [ simpl powerRZ; lra | simpl; lia ].
Qed.

(** Two equal small integer scores in binary64. *)
Lemma mean_plus_gmean_pair64 (v : Z) :
  (0 < v < 2 ^ 26)%Z ->
  mean_plus_gmean round64 [Fin (IZR v); Fin (IZR v)] (Fin 1)
  = Ok (Fin (IZR (v + (v - 4)))).
Proof.
  intros Hv.
  assert (Hv2 : (0 < v * v < 2 ^ 52)%Z).
  { change (2 ^ 52)%Z with (2 ^ 26 * 2 ^ 26)%Z. nia. }
  assert (HvR : 0 < IZR v) by (apply IZR_lt; lia).
  assert (Hs : np_sum round64 [Fin (IZR v); Fin (IZR v)] = Fin (IZR (v + v))).
  { unfold np_sum. simpl.
    replace (0 + IZR v) with (IZR v) by lra.
    rewrite round64_int by lia. rewrite <- plus_IZR.
    rewrite round64_int by lia. reflexivity. }
  assert (Hp : np_prod round64 [Fin (IZR v); Fin (IZR v)] = Fin (IZR (v * v))).
  { unfold np_prod. simpl.
    replace (1 * IZR v) with (IZR v) by lra.
    rewrite round64_int by lia. rewrite <- mult_IZR.
    rewrite round64_int by lia. reflexivity. }
  assert (Hhalf : py_truediv round64 1 2 = Ok (/ 2)).
  { unfold py_truediv. f_equal. replace (1 / INR 2) with (/ 2) by (simpl; lra).
    apply (round64_const _ 4503599627370496 (-53));
      first [ simpl powerRZ; lra | simpl; lia ]. }
  unfold mean_plus_gmean, amean, gmean. simpl length.
  rewrite Hs, Hp, Hhalf. unfold bind.
  unfold fdiv. rewrite is_zero_false by (simpl; lra).
  replace (IZR (v + v) / INR 2) with (IZR v) by (rewrite plus_IZR; simpl; lra).
  rewrite round64_int by lia.
  unfold fpow. rewrite is_zero_false by lra.
  rewrite is_pos_true by (apply IZR_lt; lia).
  rewrite mult_IZR, Rpower_half_sqr by assumption.
  rewrite round64_int by lia.
  unfold fsub, fmul, fadd. do 2 f_equal.
  rewrite <- minus_IZR. rewrite round64_int by lia.
  replace (1 * IZR (v - 4)) with (IZR (v - 4)) by lra.
  rewrite round64_int by lia.
  rewrite <- plus_IZR. apply round64_int. lia.
Qed.

(** Bounds on a root from bounds on the power. *)
Lemma root_bounds (p a b : R) (n : nat) :
  (0 < n)%nat -> 0 < a -> a ^ n < p -> p < b ^ n -> 0 < b ->
  a < Rpower p (/ INR n) < b.
Proof.
  intros Hn Ha Hap Hpb Hb.
  assert (Hi : 0 < / INR n) by (apply Rinv_0_lt_compat, lt_0_INR, Hn).
  assert (Han : 0 < a ^ n) by (apply pow_lt, Ha).
  split.
  - rewrite <- (Rpower_of_pow a n Ha Hn) at 1.
    apply Rlt_Rpower_l; [assumption | split; lra].
  - rewrite <- (Rpower_of_pow b n Hb Hn) at 1.
    apply Rlt_Rpower_l; [assumption | split; lra].
Qed.

(** ** The examples in binary64 *)

Lemma py_truediv_half : py_truediv round64 1 2 = Ok (/ 2).
Proof.
  unfold py_truediv. f_equal. replace (1 / INR 2) with (/ 2) by (simpl; lra).
  apply (round64_const _ 4503599627370496 (-53));
    first [ simpl powerRZ; lra | simpl; lia ].
Qed.

Lemma mean_plus_gmean64_unfold (xs : list float64) (S P e : R) :
  np_sum round64 xs = Fin S -> np_prod round64 xs = Fin P -> 0 < P ->
  py_truediv round64 1 (length xs) = Ok e -> e <> 0 -> xs <> [] ->
  mean_plus_gmean round64 xs (Fin 1)
  = Ok (Fin (round64 (round64 (S / INR (length xs))
                      + round64 (1 * round64 (round64 (Rpower P e) - 4))))).
Proof.
  intros HS HP HP0 He He0 Hne.
  unfold mean_plus_gmean, amean, gmean. rewrite HS, HP, He. unfold bind.
  unfold fdiv. pose proof (INR_length_pos xs Hne) as Hn.
  rewrite is_zero_false by lra.
  unfold fpow. rewrite is_zero_false by assumption.
  rewrite is_pos_true by assumption. reflexivity.
Qed.

Lemma approx64 (xs : list float64) (S P e v lo hi : R) :
  np_sum round64 xs = Fin S -> np_prod round64 xs = Fin P -> 0 < P ->
  py_truediv round64 1 (length xs) = Ok e -> e <> 0 -> xs <> [] ->
  - 16 <= S / INR (length xs) <= 16 ->
  lo < Rpower P e < hi -> 0 <= lo -> hi <= 16 ->
  v - 9 / 10 ^ 7 <= S / INR (length xs) + (lo - 4) ->
  S / INR (length xs) + (hi - 4) <= v + 9 / 10 ^ 7 ->
  approx (mean_plus_gmean round64 xs (Fin 1)) v.
Proof.
  intros HS HP HP0 He He0 Hne HA HG Hlo Hhi Hvlo Hvhi.
  eexists. split.
  - apply (mean_plus_gmean64_unfold xs S P e); assumption.
  - pose proof (combine64_error (S / INR (length xs)) (Rpower P e) HA
                  ltac:(lra)) as Herr.
    apply Rabs_bound_inv in Herr.
    apply Rabs_def1; simpl in *; lra.
Qed.

(** The power with the rounded exponent [third64] from the cube root. *)
Lemma Rpower_third64_bounds (P lo hi : R) :
  1 <= P <= 1000 -> 0 < lo -> lo < Rpower P (/ INR 3) < hi ->
  lo * (1 - / 10 ^ 13) < Rpower P third64 < hi.
Proof.
  intros HP Hlo HG.
  set (d := / 54043195528445952).
  assert (Hd : third64 = / INR 3 + - d).
  { rewrite third64_value. unfold d. simpl. lra. }
  rewrite Hd, Rpower_plus, Rpower_Ropp.
  assert (HlnP0 : 0 <= ln P).
  { destruct (proj1 HP) as [Hlt | <-]; [|rewrite ln_1; lra].
    rewrite <- ln_1. left. apply ln_increasing; lra. }
  assert (HlnP1 : ln P <= 999).
  { pose proof (exp_ineq1_le (ln P)) as H. rewrite exp_ln in H by lra. lra. }
  assert (HE1 : 1 <= Rpower P d).
  { unfold Rpower. rewrite <- exp_0. apply exp_le_compat.
    apply Rmult_le_pos; [unfold d; lra | assumption]. }
  assert (HE2 : / Rpower P d >= 1 - / 10 ^ 13).
  { rewrite <- Rpower_Ropp. unfold Rpower.
    pose proof (exp_ineq1_le (- d * ln P)) as H.
    assert (Hdl : d * ln P <= d * 999) by (apply Rmult_le_compat_l; [unfold d; lra | assumption]).
    unfold d in *. simpl. lra. }
  assert (HE3 : / Rpower P d <= 1).
  { rewrite <- Rinv_1. apply Rinv_le_contravar; lra. }
  assert (HE4 : 0 < / Rpower P d) by (simpl in HE2; lra).
  set (E := / Rpower P d) in *. set (G := Rpower P (/ INR 3)) in *.
  simpl in HE2. split; nra.
Qed.

Lemma cube_root_bounds64 (P lo hi : R) :
  1 <= P <= 1000 -> 0 < lo -> lo ^ 3 < P -> P < hi ^ 3 -> 0 < hi ->
  lo * (1 - / 10 ^ 13) < Rpower P third64 < hi.
Proof.
  intros HP Hlo H1 H2 Hhi. apply Rpower_third64_bounds; try assumption.
  apply root_bounds; try assumption. lia.
Qed.

Lemma third64_nonzero : third64 <> 0.
Proof. rewrite third64_value. lra. Qed.

Ltac eval_sum := unfold np_sum; simpl; round_int; reflexivity.
Ltac eval_prod := unfold np_prod; simpl; round_int; reflexivity.

Lemma approx64_3_5 :
  approx (mean_plus_gmean round64 [Fin 3; Fin 5] (Fin 1)) 3.872983.
Proof.
  apply (approx64 _ 8 15 (/ 2) _ 3.8729830 3.8729835);
    [eval_sum | eval_prod | lra | exact py_truediv_half | lra | discriminate
     | simpl; lra | | lra | lra | simpl; lra | simpl; lra].
  apply (root_bounds 15 _ _ 2); simpl; try lia; lra.
Qed.

Lemma approx64_9_12 :
  approx (mean_plus_gmean round64 [Fin 9; Fin 12] (Fin 1)) 16.892305.
Proof.
  apply (approx64 _ 21 108 (/ 2) _ 10.3923045 10.3923050);
    [eval_sum | eval_prod | lra | exact py_truediv_half | lra | discriminate
     | simpl; lra | | lra | lra | simpl; lra | simpl; lra].
  apply (root_bounds 108 _ _ 2); simpl; try lia; lra.
Qed.

Lemma approx64_4_4_5 :
  approx (mean_plus_gmean round64 [Fin 4; Fin 4; Fin 5] (Fin 1)) 4.642203.
Proof.
  apply (approx64 _ 13 80 third64 _ (4.3088690 * (1 - / 10 ^ 13)) 4.3088695);
    [eval_sum | eval_prod | lra | exact py_truediv_third
     | exact third64_nonzero | discriminate
     | simpl; lra | | simpl; lra | lra | simpl; lra | simpl; lra].
  apply cube_root_bounds64; simpl; lra.
Qed.

Lemma approx64_4_5_5 :
  approx (mean_plus_gmean round64 [Fin 4; Fin 5; Fin 5] (Fin 1)) 5.308256.
Proof.
  apply (approx64 _ 14 100 third64 _ (4.6415885 * (1 - / 10 ^ 13)) 4.6415890);
    [eval_sum | eval_prod | lra | exact py_truediv_third
     | exact third64_nonzero | discriminate
     | simpl; lra | | simpl; lra | lra | simpl; lra | simpl; lra].
  apply cube_root_bounds64; simpl; lra.
Qed.

(** ** The recorded output on [5, 5, 5] *)

Lemma exp_sq (x b c : R) : exp x < b -> b * b <= c -> exp (2 * x) < c.
Proof.
  intros Hb Hc. replace (2 * x) with (x + x) by ring. rewrite exp_plus.
  pose proof (exp_pos x). nra.
Qed.

Lemma ln_5_gt : 16001 / 10000 < ln 5.
Proof.
  apply exp_lt_inv. rewrite exp_ln by lra.
  set (h := 16001 / 2560000).
  assert (H0 : exp h < 1.0062898).
  { assert (H : 1 + - h < exp (- h)) by (apply exp_ineq1; unfold h; lra).
    rewrite exp_Ropp in H. pose proof (exp_pos h) as Hp.
    assert (Hi : exp h * / exp h = 1) by (field; lra).
    unfold h in *. nra. }
  pose proof (exp_sq _ _ 1.0126192 H0 ltac:(lra)) as H1.
  pose proof (exp_sq _ _ 1.0253977 H1 ltac:(lra)) as H2.
  pose proof (exp_sq _ _ 1.0514405 H2 ltac:(lra)) as H3.
  pose proof (exp_sq _ _ 1.1055272 H3 ltac:(lra)) as H4.
  pose proof (exp_sq _ _ 1.2221904 H4 ltac:(lra)) as H5.
  pose proof (exp_sq _ _ 1.4937494 H5 ltac:(lra)) as H6.
  pose proof (exp_sq _ _ 2.2312873 H6 ltac:(lra)) as H7.
  pose proof (exp_sq _ _ 4.9786431 H7 ltac:(lra)) as H8.
  replace (16001 / 10000) with (2 * (2 * (2 * (2 * (2 * (2 * (2 * (2 * h))))))))
    by (unfold h; lra).
  lra.
Qed.

Lemma ln_5_lt : ln 5 < 4.
Proof. pose proof (exp_ineq1 (ln 5) ltac:(pose proof ln_5_gt; lra)) as H.
  rewrite exp_ln in H by lra. lra.
Qed.

Lemma Rpower_125_third64 :
  Rpower 125 third64 = 5 * exp (- (ln 5 * / 2 ^ 54)).
Proof.
  unfold Rpower.
  replace 125 with (5 ^ 3) by (simpl; lra).
  rewrite ln_pow by lra.
  replace (third64 * (INR 3 * ln 5)) with (ln 5 + - (ln 5 * / 2 ^ 54)).
  - rewrite exp_plus, exp_ln by lra. reflexivity.
  - rewrite third64_value. simpl. lra.
Qed.

Lemma Rpower_125_third64_bounds :
  5 - 3 / 2 * / 2 ^ 50 < Rpower 125 third64 < 5 - / 2 ^ 51.
Proof.
  rewrite Rpower_125_third64.
  pose proof ln_5_lt as Hlt. pose proof ln_5_gt as Hgt.
  set (c := / 2 ^ 54).
  assert (Hc : c = / 18014398509481984) by (unfold c; f_equal; simpl; lra).
  assert (Hc0 : 0 < c) by (rewrite Hc; lra).
  assert (Hu : 0 < ln 5 * c) by (apply Rmult_lt_0_compat; lra).
  destruct (exp_neg_bounds (ln 5 * c) Hu) as [Hlo Hhi].
  pose proof (exp_pos (- (ln 5 * c))) as Hp.
  set (T := exp (- (ln 5 * c))) in *.
  assert (Hu1 : ln 5 * c < 4 * c) by nra.
  assert (Hu2 : 16001 / 10000 * c < ln 5 * c) by nra.
  assert (Hhi' : T * (1 + 16001 / 10000 * c) < 1) by nra.
  replace (/ 2 ^ 50) with (16 * c) by (rewrite Hc; simpl; lra).
  replace (/ 2 ^ 51) with (8 * c) by (rewrite Hc; simpl; lra).
  rewrite Hc in *. split; lra.
Qed.

(** [125 ** (1/3)] in binary64 is the number just below [5]. *)
Lemma round64_Rpower_125_third64 : round64 (Rpower 125 third64) = 5 - / 2 ^ 50.
Proof.
  destruct Rpower_125_third64_bounds as [Hlo Hhi].
  assert (H50 : / 2 ^ 50 = / 1125899906842624) by (f_equal; simpl; lra).
  assert (H51 : / 2 ^ 51 = / 2251799813685248) by (f_equal; simpl; lra).
  rewrite H50 in *. rewrite H51 in Hhi.
  rewrite (round64_near _ 5629499534213119 (-50)).
  - simpl powerRZ. lra.
  - simpl powerRZ. rewrite Rabs_pos_eq by lra. lra.
  - simpl powerRZ. lra.
Qed.

(** In binary64 the call [mean_plus_gmean(5, 5, 5)] returns the number just
    below [6], as the notebook records ([5.999999999999999]). *)
Lemma mean_plus_gmean_555 :
  mean_plus_gmean round64 [Fin 5; Fin 5; Fin 5] (Fin 1) = Ok (Fin (6 - / 2 ^ 50)).
Proof.
  rewrite (mean_plus_gmean64_unfold _ 15 125 third64);
    [ | eval_sum | eval_prod | lra | exact py_truediv_third
      | exact third64_nonzero | discriminate ].
  do 2 f_equal. rewrite round64_Rpower_125_third64.
  replace (15 / INR (length [Fin 5; Fin 5; Fin 5])) with 5 by (simpl; lra).
  rewrite (round64_int 5) by reflexivity.
  assert (H50 : / 2 ^ 50 = / 1125899906842624) by (f_equal; simpl; lra).
  rewrite H50.
  replace (5 - / 1125899906842624 - 4) with (1 - / 1125899906842624) by lra.
  rewrite (round64_const (1 - / 1125899906842624) 9007199254740984 (-53))
    by (first [ simpl powerRZ; lra | simpl; lia ]).
  replace (1 * (1 - / 1125899906842624)) with (1 - / 1125899906842624) by lra.
  rewrite (round64_const (1 - / 1125899906842624) 9007199254740984 (-53))
    by (first [ simpl powerRZ; lra | simpl; lia ]).
  replace (5 + (1 - / 1125899906842624)) with (6 - / 1125899906842624) by lra.
  apply (round64_const _ 6755399441055743 (-50));
    first [ simpl powerRZ; lra | simpl; lia ].
Qed.

(** ** C5: the recorded examples *)

(** C5, as stated, fails on [4, 4, 4] and on [5, 5, 5]: in binary64 the
    exponent [1/3] is rounded, [64 ** (1/3)] and [125 ** (1/3)] are the
    numbers just below [4] and [5], and the combiner returns [4 - 2^-51]
    and [6 - 2^-50] (printed [3.9999999999999996] and [5.999999999999999],
    the outputs recorded in the notebook), not exactly [4.0] and [6.0]. *)
Lemma C5_counterexample :
  mean_plus_gmean round64 [Fin 4; Fin 4; Fin 4] (Fin 1) = Ok (Fin (4 - / 2 ^ 51)) /\
  ~ returns (mean_plus_gmean round64 [Fin 4; Fin 4; Fin 4] (Fin 1)) 4 /\
  mean_plus_gmean round64 [Fin 5; Fin 5; Fin 5] (Fin 1) = Ok (Fin (6 - / 2 ^ 50)) /\
  ~ returns (mean_plus_gmean round64 [Fin 5; Fin 5; Fin 5] (Fin 1)) 6.
Proof.
  assert (H51 : 0 < / 2 ^ 51) by (apply Rinv_0_lt_compat, pow_lt; lra).
  assert (H50 : 0 < / 2 ^ 50) by (apply Rinv_0_lt_compat, pow_lt; lra).
  split; [exact mean_plus_gmean_444 | split; [| split; [exact mean_plus_gmean_555|]]].
  - unfold returns. rewrite mean_plus_gmean_444. intros H. apply Fin_inj in H. lra.
  - unfold returns. rewrite mean_plus_gmean_555. intros H. apply Fin_inj in H. lra.
Qed.

(** C5 (amended): with the default weight [k = 1] and the neutral point [4],
    in binary64 the combiner returns exactly [4.0] on [4, 4], [6.0] on
    [5, 5] and [2.0] on [3, 3]; approximately (within [10^-6]) [4.0] on
    [4, 4, 4] and [6.0] on [5, 5, 5], where the results are [4 - 2^-51] and
    [6 - 2^-50]; and approximately [3.872983] on [3, 5], [16.892305] on
    [9, 12], [4.642203] on [4, 4, 5] and [5.308256] on [4, 5, 5].  The
    results on [4, 4, 4] and [5, 5, 5] are [4] and [6] in exact arithmetic
    only. *)
Theorem C5_examples :
  mean_plus_gmean round64 [Fin 4; Fin 4] (Fin 1) = Ok (Fin 4) /\
  mean_plus_gmean round64 [Fin 5; Fin 5] (Fin 1) = Ok (Fin 6) /\
  mean_plus_gmean round64 [Fin 3; Fin 3] (Fin 1) = Ok (Fin 2) /\
  approx (mean_plus_gmean round64 [Fin 4; Fin 4; Fin 4] (Fin 1)) 4 /\
  approx (mean_plus_gmean round64 [Fin 5; Fin 5; Fin 5] (Fin 1)) 6 /\
  approx (mean_plus_gmean round64 [Fin 3; Fin 5] (Fin 1)) 3.872983 /\
  approx (mean_plus_gmean round64 [Fin 9; Fin 12] (Fin 1)) 16.892305 /\
  approx (mean_plus_gmean round64 [Fin 4; Fin 4; Fin 5] (Fin 1)) 4.642203 /\
  approx (mean_plus_gmean round64 [Fin 4; Fin 5; Fin 5] (Fin 1)) 5.308256 /\
  mean_plus_gmean round64 [Fin 4; Fin 4; Fin 4] (Fin 1) = Ok (Fin (4 - / 2 ^ 51)) /\
  mean_plus_gmean round64 [Fin 5; Fin 5; Fin 5] (Fin 1) = Ok (Fin (6 - / 2 ^ 50)) /\
  mean_plus_gmean exact [Fin 4; Fin 4; Fin 4] (Fin 1) = Ok (Fin 4) /\
  mean_plus_gmean exact [Fin 5; Fin 5; Fin 5] (Fin 1) = Ok (Fin 6).
Proof.
  repeat (apply conj).
  - apply (mean_plus_gmean_pair64 4). lia.
  - apply (mean_plus_gmean_pair64 5). lia.
  - apply (mean_plus_gmean_pair64 3). lia.
  - exists (4 - / 2 ^ 51). split; [exact mean_plus_gmean_444|].
    assert (H51 : / 2 ^ 51 = / 2251799813685248) by (f_equal; simpl; lra).
    rewrite H51. apply Rabs_def1; simpl; lra.
  - exists (6 - / 2 ^ 50). split; [exact mean_plus_gmean_555|].
    assert (H50 : / 2 ^ 50 = / 1125899906842624) by (f_equal; simpl; lra).
    rewrite H50. apply Rabs_def1; simpl; lra.
  - exact approx64_3_5.
  - exact approx64_9_12.
  - exact approx64_4_4_5.
  - exact approx64_4_5_5.
  - exact mean_plus_gmean_444.
  - exact mean_plus_gmean_555.
  - change [Fin 4; Fin 4; Fin 4] with (map Fin (repeat 4 3)).
    rewrite (mean_plus_gmean_repeat 3 4 1) by (try lia; lra). do 2 f_equal. lra.
  - change [Fin 5; Fin 5; Fin 5] with (map Fin (repeat 5 3)).
    rewrite (mean_plus_gmean_repeat 3 5 1) by (try lia; lra). do 2 f_equal. lra.
Qed.

(** ** C6: symmetry *)

Lemma Rsum_Permutation xs ys : Permutation xs ys -> Rsum xs = Rsum ys.
Proof.
  induction 1 as [| x xs ys _ IH | x y xs | xs ys zs _ IH1 _ IH2].
  - reflexivity.
  - change (x + Rsum xs = x + Rsum ys). rewrite IH. reflexivity.
  - change (y + (x + Rsum xs) = x + (y + Rsum xs)). ring.
  - congruence.
Qed.

Lemma Rprod_Permutation xs ys : Permutation xs ys -> Rprod xs = Rprod ys.
Proof.
  induction 1 as [| x xs ys _ IH | x y xs | xs ys zs _ IH1 _ IH2].
  - reflexivity.
  - change (x * Rprod xs = x * Rprod ys). rewrite IH. reflexivity.
  - change (y * (x * Rprod xs) = x * (y * Rprod xs)). ring.
  - congruence.
Qed.

(** In exact arithmetic the combiner depends on the scores only through
    their sum, their product and their number. *)
Lemma mean_plus_gmean_exact_unfold xs k :
  mean_plus_gmean exact (map Fin xs) k =
  (let! g := (let! e := py_truediv exact 1 (length xs) in
              Ok (fpow exact (Fin (Rprod xs)) e)) in
   Ok (fadd exact (fdiv exact (Fin (Rsum xs)) (Fin (INR (length xs))))
                  (fmul exact k (fsub exact g (Fin 4))))).
Proof.
  unfold mean_plus_gmean, amean, gmean.
  rewrite np_sum_exact, np_prod_exact, length_map. reflexivity.
Qed.

Lemma third64_bounds : 0 < third64 <= / 2.
Proof. unfold third64. simpl powerRZ. lra. Qed.

(** The sum of [2^55, 3, 3] from left to right loses both small terms; the
    sum of [3, 3, 2^55] rounds [2^55 + 6] up. *)
Lemma np_sum_big_first :
  np_sum round64 [Fin (IZR (2 ^ 55)); Fin 3; Fin 3] = Fin (IZR (2 ^ 55)).
Proof.
  unfold np_sum. cbn [fold_left fadd].
  rewrite Rplus_0_l, (round64_shift _ (2 ^ 52) 3) by first [reflexivity | lia].
  rewrite <- plus_IZR, (round64_int_near _ (2 ^ 55) (2 ^ 52) 3)
    by first [reflexivity | simpl; lia].
  rewrite <- plus_IZR, (round64_int_near _ (2 ^ 55) (2 ^ 52) 3)
    by first [reflexivity | simpl; lia].
  reflexivity.
Qed.

Lemma np_sum_big_last :
  np_sum round64 [Fin 3; Fin 3; Fin (IZR (2 ^ 55))] = Fin (IZR (2 ^ 55 + 8)).
Proof.
  unfold np_sum. cbn [fold_left fadd].
  rewrite Rplus_0_l, (round64_int 3) by (simpl; lia).
  rewrite <- plus_IZR, round64_int by (simpl; lia).
  rewrite <- plus_IZR, (round64_int_near _ (2 ^ 55 + 8) (2 ^ 52 + 1) 3)
    by first [reflexivity | simpl; lia].
  reflexivity.
Qed.

Lemma np_prod_big_first :
  np_prod round64 [Fin (IZR (2 ^ 55)); Fin 3; Fin 3] = Fin (IZR (9 * 2 ^ 55)).
Proof.
  unfold np_prod. cbn [fold_left fmul].
  rewrite Rmult_1_l, (round64_shift _ (2 ^ 52) 3) by first [reflexivity | lia].
  rewrite <- mult_IZR, (round64_shift _ (3 * 2 ^ 51) 4)
    by first [reflexivity | simpl; lia].
  rewrite <- mult_IZR, (round64_shift _ (9 * 2 ^ 49) 6)
    by first [reflexivity | simpl; lia].
  reflexivity.
Qed.

Lemma np_prod_big_last :
  np_prod round64 [Fin 3; Fin 3; Fin (IZR (2 ^ 55))] = Fin (IZR (9 * 2 ^ 55)).
Proof.
  unfold np_prod. cbn [fold_left fmul].
  rewrite Rmult_1_l, (round64_int 3) by (simpl; lia).
  rewrite <- mult_IZR, round64_int by (simpl; lia).
  rewrite <- mult_IZR, (round64_shift _ (9 * 2 ^ 49) 6)
    by first [reflexivity | simpl; lia].
  reflexivity.
Qed.

(** A crude bound on the weighted term [1 * (g - 4)] in binary64. *)
Lemma weighted_term_bound (P e : R) :
  0 < P <= IZR (2 ^ 60) -> 0 < e <= / 2 ->
  Rabs (round64 (1 * round64 (round64 (Rpower P e) - 4))) <= IZR (2 ^ 31).
Proof.
  intros [HP0 HP] [He0 He].
  assert (H30 : 0 < IZR (2 ^ 30)) by (apply IZR_lt; reflexivity).
  assert (HX : 0 < Rpower P e <= IZR (2 ^ 30)).
  { split; [unfold Rpower; apply exp_pos|].
    transitivity (Rpower (IZR (2 ^ 60)) e).
    - apply Rle_Rpower_l; lra.
    - transitivity (Rpower (IZR (2 ^ 60)) (/ 2)).
      + apply Rle_Rpower; [|assumption]. lra.
      + replace (IZR (2 ^ 60)) with (IZR (2 ^ 30) * IZR (2 ^ 30))
          by (rewrite <- mult_IZR; f_equal).
        rewrite Rpower_half_sqr by assumption. lra. }
  set (X := Rpower P e) in *.
  assert (Hu : / 2 ^ 53 = / 9007199254740992) by (f_equal; simpl; lra).
  assert (E30 : IZR (2 ^ 30) = 1073741824) by (simpl; lra).
  assert (E31 : IZR (2 ^ 31) = 2147483648) by (simpl; lra).
  rewrite E30 in HX. rewrite E31. clear H30 E30 E31 HP.
  pose proof (round64_abs_error X 1073741824 ltac:(apply Rabs_le; lra)) as Hg.
  set (g := round64 X) in *. rewrite Hu in Hg.
  pose proof (round64_abs_error (g - 4) 2147483648 ltac:(apply Rabs_le; lra)) as H1.
  set (d1 := round64 (g - 4)) in *. rewrite Hu in H1.
  pose proof (round64_abs_error (1 * d1) 2147483648 ltac:(apply Rabs_le; lra)) as H2.
  set (d2 := round64 (1 * d1)) in *. rewrite Hu in H2.
  apply Rabs_le. lra.
Qed.

(** C6, as stated, fails in binary64: the float scores [2^55, 3, 3] and the
    same scores in the order [3, 3, 2^55] have different sums, hence
    different arithmetic means, and the combiner returns different
    floats. *)
Lemma C6_counterexample :
  Permutation [Fin (IZR (2 ^ 55)); Fin 3; Fin 3] [Fin 3; Fin 3; Fin (IZR (2 ^ 55))] /\
  amean round64 [Fin (IZR (2 ^ 55)); Fin 3; Fin 3] = Fin 12009599006321322 /\
  amean round64 [Fin 3; Fin 3; Fin (IZR (2 ^ 55))] = Fin 12009599006321326 /\
  mean_plus_gmean round64 [Fin (IZR (2 ^ 55)); Fin 3; Fin 3] (Fin 1)
  <> mean_plus_gmean round64 [Fin 3; Fin 3; Fin (IZR (2 ^ 55))] (Fin 1).
Proof.
  assert (E3 : INR 3 = 3) by (simpl; lra).
  assert (E55 : IZR (2 ^ 55) = 36028797018963968) by reflexivity.
  assert (E55' : IZR (2 ^ 55 + 8) = 36028797018963976) by reflexivity.
  assert (Ha1 : round64 (IZR (2 ^ 55) / INR 3) = 12009599006321322).
  { rewrite E3, E55. rewrite (round64_near _ 6004799503160661 1).
    - simpl powerRZ. lra.
    - rewrite Rabs_pos_eq by lra. simpl powerRZ. lra.
    - simpl powerRZ. lra. }
  assert (Ha2 : round64 (IZR (2 ^ 55 + 8) / INR 3) = 12009599006321326).
  { rewrite E3, E55'. rewrite (round64_near _ 6004799503160663 1).
    - simpl powerRZ. lra.
    - rewrite Rabs_pos_eq by lra. simpl powerRZ. lra.
    - simpl powerRZ. lra. }
  split; [|split; [|split]].
  - apply (Permutation_cons_append [Fin 3; Fin 3] (Fin (IZR (2 ^ 55)))).
  - unfold amean. rewrite np_sum_big_first. unfold fdiv.
    rewrite is_zero_false by (simpl; lra). simpl length. rewrite Ha1. reflexivity.
  - unfold amean. rewrite np_sum_big_last. unfold fdiv.
    rewrite is_zero_false by (simpl; lra). simpl length. rewrite Ha2. reflexivity.
  - assert (HP : 0 < IZR (9 * 2 ^ 55) <= IZR (2 ^ 60)).
    { split; [apply IZR_lt | apply IZR_le]; simpl; lia. }
    pose proof third64_bounds as He.
    rewrite (mean_plus_gmean64_unfold _ _ _ _ np_sum_big_first np_prod_big_first
               (proj1 HP) py_truediv_third ltac:(lra) ltac:(discriminate)).
    rewrite (mean_plus_gmean64_unfold _ _ _ _ np_sum_big_last np_prod_big_last
               (proj1 HP) py_truediv_third ltac:(lra) ltac:(discriminate)).
    simpl length. rewrite Ha1, Ha2.
    pose proof (weighted_term_bound _ _ HP He) as HD.
    set (D := round64 (1 * round64 (round64 (Rpower (IZR (9 * 2 ^ 55)) third64) - 4))) in *.
    apply Rabs_bound_inv in HD.
    assert (E31 : IZR (2 ^ 31) = 2147483648) by (simpl; lra).
    rewrite E31 in HD.
    assert (Hu : / 2 ^ 53 = / 9007199254740992) by (f_equal; simpl; lra).
    pose proof (round64_abs_error (12009599006321322 + D) 13000000000000000
                  ltac:(apply Rabs_le; lra)) as H1.
    pose proof (round64_abs_error (12009599006321326 + D) 13000000000000000
                  ltac:(apply Rabs_le; lra)) as H2.
    rewrite Hu in H1, H2.
    intros Heq. injection Heq as Heq. rewrite Heq in H1. lra.
Qed.

(** C6 (amended): in exact real arithmetic, for every sequence of scores
    (nonempty or not) and every [k], the combiner's result is invariant
    under every permutation of the input sequence; in binary64 the same
    holds for positive integer scores whose sum and product are below
    [2^53]. *)
Theorem C6_permutation_invariant :
  (forall (xs ys : list R) (k : float64),
      Permutation xs ys ->
      mean_plus_gmean exact (map Fin xs) k = mean_plus_gmean exact (map Fin ys) k) /\
  (forall (zs zs' : list Z) (k : float64),
      small_scores zs -> Permutation zs zs' ->
      mean_plus_gmean round64 (int_scores zs) k
      = mean_plus_gmean round64 (int_scores zs') k).
Proof.
  split.
  - intros xs ys k HP. rewrite !mean_plus_gmean_exact_unfold.
    rewrite (Rsum_Permutation xs ys HP), (Rprod_Permutation xs ys HP).
    rewrite (Permutation_length HP). reflexivity.
  - exact mean_plus_gmean_int_Permutation.
Qed.

Lemma C6_witness :
  mean_plus_gmean exact (map Fin [9; 12; 3]) (Fin 1)
  = mean_plus_gmean exact (map Fin [3; 9; 12]) (Fin 1) /\
  mean_plus_gmean round64 (int_scores [9; 12; 3]%Z) (Fin 1)
  = mean_plus_gmean round64 (int_scores [3; 9; 12]%Z) (Fin 1).
Proof.
  split.
  - apply (proj1 C6_permutation_invariant [9; 12; 3] [3; 9; 12] (Fin 1)).
    apply Permutation_sym. apply (Permutation_cons_append [9; 12] 3).
  - apply (proj2 C6_permutation_invariant [9; 12; 3]%Z [3; 9; 12]%Z (Fin 1)).
    + split; [repeat constructor | split; reflexivity].
    + apply Permutation_sym. apply (Permutation_cons_append [9; 12]%Z 3%Z).
Defined.

(** ** C7: the inequality of arithmetic and geometric means *)

(** Each positive score is bounded through the exponential, and so is the
    product. *)
Lemma Rprod_exp_bound (A : R) (xs : list R) :
  0 < A -> all_positive xs ->
  Rprod xs <= A ^ length xs * exp (Rsum xs / A - INR (length xs)).
Proof.
  intros HA. induction 1 as [|x xs Hx Hxs IH].
  - simpl. replace (0 / A - 0) with 0 by (field; lra). rewrite exp_0. lra.
  - change (Rprod (x :: xs)) with (x * Rprod xs).
    change (Rsum (x :: xs)) with (x + Rsum xs).
    change (length (x :: xs)) with (S (length xs)).
    rewrite S_INR. change (A ^ S (length xs)) with (A * A ^ length xs).
    replace ((x + Rsum xs) / A - (INR (length xs) + 1))
      with ((x / A - 1) + (Rsum xs / A - INR (length xs))) by (field; lra).
    rewrite exp_plus.
    assert (Hx1 : x <= A * exp (x / A - 1)).
    { pose proof (exp_ineq1_le (x / A - 1)) as He.
      replace x with (A * (1 + (x / A - 1))) at 1 by (field; lra).
      apply Rmult_le_compat_l; lra. }
    pose proof (Rprod_positive xs Hxs) as Hp.
    pose proof (exp_pos (x / A - 1)) as He1.
    pose proof (exp_pos (Rsum xs / A - INR (length xs))) as He2.
    pose proof (pow_lt A (length xs) HA) as HAn.
    transitivity (A * exp (x / A - 1) * Rprod xs).
    + apply Rmult_le_compat_r; lra.
    + replace (A * A ^ length xs *
               (exp (x / A - 1) * exp (Rsum xs / A - INR (length xs))))
        with (A * exp (x / A - 1) *
              (A ^ length xs * exp (Rsum xs / A - INR (length xs)))) by ring.
      apply Rmult_le_compat_l; [|assumption].
      apply Rmult_le_pos; lra.
Qed.

Lemma Rsum_positive xs : xs <> [] -> all_positive xs -> 0 < Rsum xs.
Proof.
  intros Hne Hpos. destruct Hpos as [|x xs Hx Hxs]; [congruence|].
  change (Rsum (x :: xs)) with (x + Rsum xs).
  clear Hne. induction Hxs as [|z zs Hz _ IH]; [simpl; lra|].
  change (Rsum (z :: zs)) with (z + Rsum zs). lra.
Qed.

Lemma AM_GM (xs : list R) :
  xs <> [] -> all_positive xs -> geometric_mean xs <= arithmetic_mean xs.
Proof.
  intros Hne Hpos.
  pose proof (INR_length_pos xs Hne) as Hn.
  pose proof (Rsum_positive xs Hne Hpos) as Hs.
  pose proof (Rprod_positive xs Hpos) as Hp.
  assert (HA : 0 < arithmetic_mean xs).
  { unfold arithmetic_mean. apply Rdiv_lt_0_compat; assumption. }
  pose proof (Rprod_exp_bound (arithmetic_mean xs) xs HA Hpos) as Hb.
  replace (Rsum xs / arithmetic_mean xs - INR (length xs)) with 0 in Hb
    by (unfold arithmetic_mean; field; lra).
  rewrite exp_0, Rmult_1_r in Hb.
  unfold geometric_mean.
  transitivity (Rpower (arithmetic_mean xs ^ length xs) (/ INR (length xs))).
  - apply Rle_Rpower_l; [|split; assumption].
    left. apply Rinv_0_lt_compat, Hn.
  - right. apply Rpower_of_pow; [assumption | apply length_pos_nat, Hne].
Qed.

(** C7, as stated, fails: the bound with an arbitrary neutral point [c] does
    not hold, because the code always uses [4].  On the scores [1, 2] with
    [k = 1] and [c = 100] the result is above the claimed bound. *)
Lemma C7_counterexample :
  exists r : R,
    returns (mean_plus_gmean exact (map Fin [1; 2]) (Fin 1)) r /\
    ~ r <= arithmetic_mean [1; 2] + 1 * (arithmetic_mean [1; 2] - 100).
Proof.
  exists (combine [1; 2] 1 4). split.
  - apply mean_plus_gmean_combine; [discriminate | simpl; lra].
  - unfold combine, arithmetic_mean. simpl.
    assert (HG : 0 < geometric_mean [1; 2]) by (unfold geometric_mean, Rpower; apply exp_pos).
    lra.
Qed.

(** C7 (amended): in exact real arithmetic, for every nonempty sequence of
    positive scores containing at least one pair of unequal values, the
    geometric mean is at most the arithmetic mean, and therefore for every
    [k >= 0] the combiner's result is at most
    [arithmetic_mean + k * (arithmetic_mean - 4)], the neutral point being
    the constant [4]. *)
Theorem C7_am_gm_bound (xs : list R) (k : R) :
  xs <> [] -> all_positive xs ->
  (exists x y : R, In x xs /\ In y xs /\ x <> y) ->
  0 <= k ->
  geometric_mean xs <= arithmetic_mean xs /\
  exists r : R,
    returns (mean_plus_gmean exact (map Fin xs) (Fin k)) r /\
    r <= arithmetic_mean xs + k * (arithmetic_mean xs - 4).
Proof.
  intros Hne Hpos _ Hk. pose proof (AM_GM xs Hne Hpos) as HGA.
  split; [assumption|].
  exists (combine xs k 4). split.
  - apply mean_plus_gmean_combine; [assumption | apply Rprod_positive, Hpos].
  - unfold combine. nra.
Qed.

Lemma C7_witness :
  geometric_mean [9; 12] <= arithmetic_mean [9; 12] /\
  exists r : R,
    returns (mean_plus_gmean exact (map Fin [9; 12]) (Fin 1)) r /\
    r <= arithmetic_mean [9; 12] + 1 * (arithmetic_mean [9; 12] - 4).
Proof.
  apply (C7_am_gm_bound [9; 12] 1); [discriminate | | | lra].
  - repeat constructor; lra.
  - exists 9, 12. simpl. split; [tauto | split; [tauto | lra]].
Defined.

(** ** C8: no input validation *)

Lemma Rprod_In_zero xs : In 0 xs -> Rprod xs = 0.
Proof.
  induction xs as [|x xs IH]; [intros []|].
  change (Rprod (x :: xs)) with (x * Rprod xs).
  intros [-> | Hin]; [ring|]. rewrite IH by assumption. ring.
Qed.

(** C8, as stated, fails on integer scores whose product leaves the 64-bit
    range: the product of [-2^31] and [-2^32] is [2^63], which is not
    negative, but in 64-bit arithmetic it wraps around to [-2^63], whose
    square root is NaN. *)
Lemma C8_counterexample :
  (0 <= Zprod [- 2 ^ 31; - 2 ^ 32])%Z /\
  Int64.np_prod [- 2 ^ 31; - 2 ^ 32]%Z = (- 2 ^ 63)%Z /\
  Int64.mean_plus_gmean round64 [- 2 ^ 31; - 2 ^ 32]%Z (Fin 1) = Ok NaN /\
  ~ (exists r : R,
        returns (Int64.mean_plus_gmean round64 [- 2 ^ 31; - 2 ^ 32]%Z (Fin 1)) r).
Proof.
  assert (HP : Int64.np_prod [- 2 ^ 31; - 2 ^ 32]%Z = (- 2 ^ 63)%Z) by reflexivity.
  assert (H : Int64.mean_plus_gmean round64 [- 2 ^ 31; - 2 ^ 32]%Z (Fin 1) = Ok NaN).
  { unfold Int64.mean_plus_gmean, Int64.gmean. rewrite HP.
    change (length [- 2 ^ 31; - 2 ^ 32]%Z) with 2%nat.
    rewrite py_truediv_half. unfold bind, Int64.to_float.
    assert (Hr : round64 (IZR (- 2 ^ 63)) = IZR (- 2 ^ 63)).
    { apply (round64_const _ (- 2 ^ 52) 11); [|simpl; lia].
      rewrite <- (IZR_pow2 11) by lia. rewrite <- mult_IZR. f_equal. }
    rewrite Hr.
    assert (Hneg : IZR (- 2 ^ 63) < 0) by (apply IZR_lt; reflexivity).
    unfold fpow. rewrite is_zero_false by lra.
    rewrite is_pos_false by lra. rewrite (is_zero_false (IZR (- 2 ^ 63))) by lra.
    rewrite is_integer_frac by lra.
    cbn [fsub fmul].
    destruct (Int64.amean round64 [- 2 ^ 31; - 2 ^ 32]%Z); reflexivity. }
  split; [vm_compute; discriminate|]. split; [exact HP|]. split; [exact H|].
  intros (r & Hr). unfold returns in Hr. rewrite H in Hr. discriminate.
Qed.

(** C8 (amended): [mean_plus_gmean] performs no input validation: in exact
    real arithmetic, for every nonempty sequence containing zero or
    negative entries whose product is non-negative, the call raises nothing
    and returns a real number;
    [mean_plus_gmean(-3, -3)] returns [-4.0], and a sequence containing [0]
    yields [arithmetic_mean + k * (0 - 4)]. *)
Theorem C8_no_input_validation :
  (forall (xs : list R) (k : R),
      xs <> [] -> Exists (fun x => x <= 0) xs -> 0 <= Rprod xs ->
      exists r : R, returns (mean_plus_gmean exact (map Fin xs) (Fin k)) r) /\
  returns (mean_plus_gmean exact [Fin (-3); Fin (-3)] (Fin 1)) (-4) /\
  (forall (xs : list R) (k : R),
      In 0 xs ->
      returns (mean_plus_gmean exact (map Fin xs) (Fin k))
              (arithmetic_mean xs + k * (0 - 4))).
Proof.
  split; [|split].
  - intros xs k Hne _ Hp.
    destruct (mean_plus_gmean_nonneg_product xs k Hne Hp) as (G & _ & _ & HG).
    eexists. exact HG.
  - unfold returns. change [Fin (-3); Fin (-3)] with (map Fin [-3; -3]).
    rewrite mean_plus_gmean_combine; [| discriminate | simpl; lra].
    unfold combine, arithmetic_mean, geometric_mean. simpl.
    replace (-3 * (-3 * 1)) with (3 * 3) by ring.
    replace (/ (1 + 1)) with (/ 2) by (f_equal; lra).
    rewrite Rpower_half_sqr by lra. do 2 f_equal. lra.
  - intros xs k Hin.
    assert (Hne : xs <> []) by (destruct xs; [destruct Hin | discriminate]).
    apply mean_plus_gmean_exact; [assumption|].
    apply gmean_exact_zero; [assumption | apply Rprod_In_zero, Hin].
Qed.

Lemma C8_witness :
  (exists r : R, returns (mean_plus_gmean exact (map Fin [-2; -8]) (Fin 1)) r) /\
  returns (mean_plus_gmean exact (map Fin [0; 6]) (Fin 1))
          (arithmetic_mean [0; 6] + 1 * (0 - 4)).
Proof.
  split.
  - apply (proj1 C8_no_input_validation [-2; -8] 1);
      [discriminate | apply Exists_cons_hd; lra | simpl; lra].
  - apply (proj2 (proj2 C8_no_input_validation) [0; 6] 1). simpl. left. reflexivity.
Defined.

(** ** C9: monotonicity *)

Lemma Rsum_app xs ys : Rsum (xs ++ ys) = Rsum xs + Rsum ys.
Proof.
  induction xs as [|x xs IH]; [simpl; lra|].
  change (x + Rsum (xs ++ ys) = x + Rsum xs + Rsum ys). rewrite IH. ring.
Qed.

Lemma Rprod_app xs ys : Rprod (xs ++ ys) = Rprod xs * Rprod ys.
Proof.
  induction xs as [|x xs IH]; [simpl; lra|].
  change (x * Rprod (xs ++ ys) = x * Rprod xs * Rprod ys). rewrite IH. ring.
Qed.

Lemma positive_app_inv l1 x l2 :
  all_positive (l1 ++ x :: l2) -> all_positive l1 /\ 0 < x /\ all_positive l2.
Proof.
  unfold all_positive. intros H. apply Forall_app in H. destruct H as [H1 H2].
  apply Forall_cons_iff in H2. tauto.
Qed.

(** C9, as stated, fails on integer scores whose product leaves the 64-bit
    range: with the second score [2^62] held fixed, raising the first score
    from [1] to [4] makes the product wrap around to [0], and the result
    falls from [2^61 + 2^31] to [2^61]. *)
Lemma C9_counterexample :
  Int64.np_prod [4; 2 ^ 62]%Z = 0%Z /\
  Int64.mean_plus_gmean round64 [1; 2 ^ 62]%Z (Fin 1) = Ok (Fin (IZR (2 ^ 61 + 2 ^ 31))) /\
  Int64.mean_plus_gmean round64 [4; 2 ^ 62]%Z (Fin 1) = Ok (Fin (IZR (2 ^ 61))) /\
  ~ result_le (Int64.mean_plus_gmean round64 [1; 2 ^ 62]%Z (Fin 1))
              (Int64.mean_plus_gmean round64 [4; 2 ^ 62]%Z (Fin 1)).
Proof.
  assert (HA : forall s : Z, (0 < s < 512)%Z ->
            Int64.amean round64 [s; 2 ^ 62]%Z = Fin (IZR (2 ^ 61))).
  { intros s Hs. unfold Int64.amean, Int64.np_sum. cbn [fold_left length].
    unfold Int64.to_float.
    assert (Hw : Int64.wrap (Int64.wrap (0 + s) + 2 ^ 62) = (s + 2 ^ 62)%Z).
    { unfold Int64.wrap. rewrite (Z.mod_small (0 + s + 2 ^ 63)) by lia.
      rewrite Z.mod_small by lia. lia. }
    rewrite Hw, (round64_int_near _ (2 ^ 62) (2 ^ 52) 10) by first [reflexivity | lia].
    unfold fdiv. rewrite is_zero_false by (simpl; lra). f_equal.
    replace (IZR (2 ^ 62) / INR 2) with (IZR (2 ^ 61)).
    - apply (round64_shift _ (2 ^ 52) 9); first [reflexivity | lia].
    - simpl INR. replace (IZR (2 ^ 62)) with (IZR (2 ^ 61) * 2);
        [field|]. rewrite <- mult_IZR. f_equal. }
  assert (H1 : Int64.mean_plus_gmean round64 [1; 2 ^ 62]%Z (Fin 1)
               = Ok (Fin (IZR (2 ^ 61 + 2 ^ 31)))).
  { unfold Int64.mean_plus_gmean. rewrite HA by lia.
    unfold Int64.gmean. change (length [1; 2 ^ 62]%Z) with 2%nat.
    rewrite py_truediv_half. unfold bind.
    change (Int64.np_prod [1; 2 ^ 62]%Z) with (2 ^ 62)%Z.
    unfold Int64.to_float.
    rewrite (round64_shift _ (2 ^ 52) 10) by first [reflexivity | lia].
    assert (Hp : 0 < IZR (2 ^ 31)) by (apply IZR_lt; reflexivity).
    unfold fpow. rewrite is_zero_false by lra.
    replace (IZR (2 ^ 62)) with (IZR (2 ^ 31) * IZR (2 ^ 31))
      by (rewrite <- mult_IZR; f_equal).
    rewrite is_pos_true by nra.
    rewrite Rpower_half_sqr by assumption.
    rewrite round64_int by (simpl; lia).
    cbn [fsub fmul fadd].
    replace (IZR (2 ^ 31) - 4) with (IZR (2 ^ 31 - 4)) by (rewrite minus_IZR; reflexivity).
    rewrite round64_int by (simpl; lia).
    rewrite Rmult_1_l, round64_int by (simpl; lia).
    rewrite <- plus_IZR.
    rewrite (round64_int_near _ (2 ^ 61 + 2 ^ 31) (2 ^ 52 + 2 ^ 22) 9)
      by first [reflexivity | simpl; lia].
    reflexivity. }
  assert (H4 : Int64.mean_plus_gmean round64 [4; 2 ^ 62]%Z (Fin 1)
               = Ok (Fin (IZR (2 ^ 61)))).
  { unfold Int64.mean_plus_gmean. rewrite HA by lia.
    unfold Int64.gmean. change (length [4; 2 ^ 62]%Z) with 2%nat.
    rewrite py_truediv_half. unfold bind.
    change (Int64.np_prod [4; 2 ^ 62]%Z) with 0%Z.
    unfold Int64.to_float. rewrite round64_int by (simpl; lia).
    unfold fpow. rewrite is_zero_false by lra.
    rewrite is_pos_false by lra. rewrite is_zero_true by reflexivity.
    rewrite is_pos_true by lra.
    cbn [fsub fmul fadd].
    replace (0 - 4) with (IZR (- 4)) by lra.
    rewrite round64_int by (simpl; lia).
    rewrite Rmult_1_l, round64_int by (simpl; lia).
    rewrite <- plus_IZR.
    rewrite (round64_int_near _ (2 ^ 61) (2 ^ 53) 8)
      by first [reflexivity | simpl; lia].
    reflexivity. }
  split; [reflexivity|]. split; [exact H1|]. split; [exact H4|].
  intros (x & y & Hx & Hy & Hle). unfold returns in Hx, Hy.
  rewrite H1 in Hx. rewrite H4 in Hy.
  injection Hx as Hx. injection Hy as Hy. subst x y.
  apply le_IZR in Hle. revert Hle. simpl. lia.
Qed.

(** C9 (amended): in exact real arithmetic, for every number of scores and
    every weight [k >= 0], [mean_plus_gmean] is weakly monotone in each
    argument over strictly positive scores: increasing any single score
    while holding the others fixed does not decrease the result. *)
Theorem C9_monotone (l1 l2 : list R) (x y k : R) :
  0 <= k -> all_positive (l1 ++ x :: l2) -> x <= y ->
  result_le (mean_plus_gmean exact (map Fin (l1 ++ x :: l2)) (Fin k))
            (mean_plus_gmean exact (map Fin (l1 ++ y :: l2)) (Fin k)).
Proof.
  intros Hk Hpos Hxy.
  destruct (positive_app_inv _ _ _ Hpos) as (H1 & Hx & H2).
  assert (Hy : 0 < y) by lra.
  assert (Hpos' : all_positive (l1 ++ y :: l2)).
  { unfold all_positive in *. apply Forall_app. split; [assumption|].
    constructor; assumption. }
  assert (Hne : forall z, l1 ++ z :: l2 <> []) by (intros z; destruct l1; discriminate).
  pose proof (Rprod_positive _ H1) as Hp1.
  pose proof (Rprod_positive _ H2) as Hp2.
  pose proof (Rprod_positive _ Hpos) as Hpx.
  exists (combine (l1 ++ x :: l2) k 4), (combine (l1 ++ y :: l2) k 4).
  split; [apply mean_plus_gmean_combine; [apply Hne | assumption]|].
  split; [apply mean_plus_gmean_combine; [apply Hne | apply Rprod_positive, Hpos']|].
  unfold combine, arithmetic_mean, geometric_mean.
  rewrite !length_app. simpl length.
  set (n := (length l1 + S (length l2))%nat).
  assert (Hn : 0 < INR n) by (apply lt_0_INR; unfold n; lia).
  assert (Hin : 0 < / INR n) by (apply Rinv_0_lt_compat, Hn).
  assert (HA : Rsum (l1 ++ x :: l2) / INR n <= Rsum (l1 ++ y :: l2) / INR n).
  { rewrite !Rsum_app. change (Rsum (x :: l2)) with (x + Rsum l2).
    change (Rsum (y :: l2)) with (y + Rsum l2).
    unfold Rdiv. apply Rmult_le_compat_r; lra. }
  assert (HG : Rpower (Rprod (l1 ++ x :: l2)) (/ INR n)
               <= Rpower (Rprod (l1 ++ y :: l2)) (/ INR n)).
  { apply Rle_Rpower_l; [lra|]. split; [assumption|].
    rewrite !Rprod_app. change (Rprod (x :: l2)) with (x * Rprod l2).
    change (Rprod (y :: l2)) with (y * Rprod l2).
    apply Rmult_le_compat_l; [lra|]. apply Rmult_le_compat_r; lra. }
  nra.
Qed.

Lemma C9_witness :
  result_le (mean_plus_gmean exact (map Fin ([4] ++ 4 :: [5])) (Fin 1))
            (mean_plus_gmean exact (map Fin ([4] ++ 5 :: [5])) (Fin 1)).
Proof.
  apply (C9_monotone [4] [5] 4 5 1); [lra | | lra].
  repeat constructor; lra.
Defined.

(** ** C10: the confidence interval *)

Lemma np_mean_exact xs :
  xs <> [] -> np_mean exact (map Fin xs) = Fin (arithmetic_mean xs).
Proof. apply amean_exact. Qed.

Lemma Rsum_squares_nonneg (m : R) xs :
  0 <= Rsum (map (fun x => (x - m) * (x - m)) xs).
Proof.
  induction xs as [|x xs IH]; [simpl; lra|].
  change (0 <= (x - m) * (x - m) + Rsum (map (fun x => (x - m) * (x - m)) xs)).
  pose proof (Rle_0_sqr (x - m)) as Hsq. unfold Rsqr in Hsq. lra.
Qed.

Lemma sample_var_nonneg xs : xs <> [] -> 0 <= sample_var xs.
Proof.
  intros Hne. unfold sample_var.
  pose proof (INR_length_pos xs Hne) as Hn.
  pose proof (Rsum_squares_nonneg (arithmetic_mean xs) xs) as Hs.
  apply Rmult_le_pos; [assumption|]. left. apply Rinv_0_lt_compat, Hn.
Qed.

Lemma np_var_exact xs :
  xs <> [] -> np_var exact (map Fin xs) = Fin (sample_var xs).
Proof.
  intros Hne. unfold np_var, sample_var.
  rewrite np_mean_exact by assumption.
  rewrite !map_map. simpl.
  rewrite <- (map_map (fun x => (x - arithmetic_mean xs) * (x - arithmetic_mean xs)) Fin).
  rewrite np_sum_exact, length_map. simpl.
  rewrite is_zero_false; [reflexivity|].
  pose proof (INR_length_pos xs Hne). lra.
Qed.

Lemma np_std_exact xs :
  xs <> [] -> np_std exact (map Fin xs) = Fin (sample_std xs).
Proof.
  intros Hne. unfold np_std. rewrite np_var_exact by assumption.
  simpl. rewrite is_neg_false by (apply sample_var_nonneg, Hne). reflexivity.
Qed.

(** The scale of the sampling distribution, [s / sqrt(n)]. *)
Lemma scale_exact xs :
  xs <> [] ->
  fdiv exact (np_std exact (map Fin xs)) (fsqrt exact (Fin (INR (length xs))))
  = Fin (sample_std xs / sqrt (INR (length xs))).
Proof.
  intros Hne. rewrite np_std_exact by assumption.
  pose proof (INR_length_pos xs Hne) as Hn.
  simpl. rewrite is_neg_false by lra. simpl.
  rewrite is_zero_false; [reflexivity|].
  pose proof (sqrt_lt_R0 _ Hn). unfold exact. lra.
Qed.

Lemma compute_ci_exact_unfold (ndtri : R -> R) xs :
  xs <> [] ->
  compute_ci exact ndtri (map Fin xs) =
  (norm_ppf exact ndtri (Fin (arithmetic_mean xs))
            (Fin (sample_std xs / sqrt (INR (length xs)))) (5 / 100),
   norm_ppf exact ndtri (Fin (arithmetic_mean xs))
            (Fin (sample_std xs / sqrt (INR (length xs)))) (95 / 100)).
Proof.
  intros Hne. unfold compute_ci. rewrite length_map.
  rewrite scale_exact, np_mean_exact by assumption. reflexivity.
Qed.

Lemma norm_ppf_exact_pos (ndtri : R -> R) (m sc q : R) :
  0 < sc -> 0 < q < 1 ->
  norm_ppf exact ndtri (Fin m) (Fin sc) q = Fin (ndtri q * sc + m).
Proof.
  intros Hsc Hq. unfold norm_ppf. simpl.
  rewrite is_pos_true by assumption. simpl.
  rewrite !is_pos_true by lra. reflexivity.
Qed.

Lemma norm_ppf_exact_zero_scale (ndtri : R -> R) (m q : R) :
  norm_ppf exact ndtri (Fin m) (Fin 0) q = NaN.
Proof. unfold norm_ppf. simpl. rewrite is_pos_false by lra. reflexivity. Qed.

Lemma sample_std_single (x : R) : sample_std [x] = 0.
Proof.
  unfold sample_std, sample_var, arithmetic_mean. simpl.
  replace ((x - (x + 0) / 1) * (x - (x + 0) / 1) + 0) with 0 by (field; lra).
  replace (0 / 1) with 0 by lra. apply sqrt_0.
Qed.

(** C10, as stated, fails when the standard deviation is zero: the scale of
    the sampling distribution is then [0], which scipy rejects, and both
    ends of the interval are NaN. *)
Lemma C10_counterexample :
  compute_ci exact logistic_quantile (map Fin [5]) = (NaN, NaN) /\
  ~ (exists (ndtri : R -> R) (low high : R),
        compute_ci exact ndtri (map Fin [5]) = (Fin low, Fin high)).
Proof.
  assert (H : forall ndtri, compute_ci exact ndtri (map Fin [5]) = (NaN, NaN)).
  { intros ndtri. rewrite compute_ci_exact_unfold by discriminate.
    rewrite sample_std_single.
    replace (0 / sqrt (INR (length [5]))) with 0 by (unfold Rdiv; ring).
    rewrite !norm_ppf_exact_zero_scale. reflexivity. }
  split; [apply H|].
  intros (ndtri & low & high & Hci). rewrite H in Hci. discriminate.
Qed.

Lemma quantile_lower_upper (ndtri : R -> R) :
  quantile_symmetric ndtri -> quantile_increasing ndtri ->
  ndtri (95 / 100) = - ndtri (5 / 100) /\ ndtri (5 / 100) < 0.
Proof.
  intros Hsym Hinc.
  assert (H95 : ndtri (95 / 100) = - ndtri (5 / 100)).
  { replace (95 / 100) with (1 - 5 / 100) by lra. apply Hsym. lra. }
  split; [assumption|].
  assert (Hlt : ndtri (5 / 100) < ndtri (95 / 100)) by (apply Hinc; lra).
  lra.
Qed.

Lemma Rsum_constant (v : R) data :
  Forall (fun x => x = v) data -> Rsum data = INR (length data) * v.
Proof.
  induction 1 as [|x xs Hx _ IH]; [simpl; lra|].
  change (Rsum (x :: xs)) with (x + Rsum xs).
  change (length (x :: xs)) with (S (length xs)).
  rewrite S_INR, IH, Hx. ring.
Qed.

Lemma Rsum_squares_constant (v : R) data :
  Forall (fun x => x = v) data ->
  Rsum (map (fun x => (x - v) * (x - v)) data) = 0.
Proof.
  induction 1 as [|x xs Hx _ IH]; [reflexivity|].
  change (Rsum (map (fun x => (x - v) * (x - v)) (x :: xs)))
    with ((x - v) * (x - v) + Rsum (map (fun x => (x - v) * (x - v)) xs)).
  rewrite IH, Hx. ring.
Qed.

(** Equal values have standard deviation zero. *)
Lemma sample_std_constant (v : R) data :
  data <> [] -> Forall (fun x => x = v) data -> sample_std data = 0.
Proof.
  intros Hne Hall. pose proof (INR_length_pos data Hne) as Hn.
  assert (Hm : arithmetic_mean data = v).
  { unfold arithmetic_mean. rewrite (Rsum_constant v) by assumption. field. lra. }
  unfold sample_std, sample_var. rewrite Hm.
  rewrite (Rsum_squares_constant v) by assumption.
  replace (0 / INR (length data)) with 0 by (field; lra). apply sqrt_0.
Qed.

(** C10 (amended): in exact real arithmetic, for every nonempty data
    sequence whose sample standard deviation is positive, [compute_ci]
    returns a two-element interval
    [[low, high]] that is symmetric about the sample mean [m]
    ([m - low = high - m]) and satisfies [low < high]; when the standard
    deviation is zero, as it is when all values are equal, both ends are
    NaN. *)
Theorem C10_confidence_interval (ndtri : R -> R) (data : list R) :
  quantile_symmetric ndtri -> quantile_increasing ndtri ->
  data <> [] ->
  (0 < sample_std data ->
   exists low high : R,
     compute_ci exact ndtri (map Fin data) = (Fin low, Fin high) /\
     arithmetic_mean data - low = high - arithmetic_mean data /\
     low < high) /\
  (sample_std data = 0 ->
   compute_ci exact ndtri (map Fin data) = (NaN, NaN)) /\
  (forall v : R, Forall (fun x => x = v) data ->
   compute_ci exact ndtri (map Fin data) = (NaN, NaN)).
Proof.
  intros Hsym Hinc Hne.
  destruct (quantile_lower_upper ndtri Hsym Hinc) as [H95 H5].
  pose proof (INR_length_pos data Hne) as Hn.
  pose proof (sqrt_lt_R0 _ Hn) as Hsq.
  rewrite compute_ci_exact_unfold by assumption.
  assert (Hzero : sample_std data = 0 ->
    (norm_ppf exact ndtri (Fin (arithmetic_mean data))
       (Fin (sample_std data / sqrt (INR (length data)))) (5 / 100),
     norm_ppf exact ndtri (Fin (arithmetic_mean data))
       (Fin (sample_std data / sqrt (INR (length data)))) (95 / 100))
    = (NaN, NaN)).
  { intros Hs. rewrite Hs.
    replace (0 / sqrt (INR (length data))) with 0 by (unfold Rdiv; ring).
    rewrite !norm_ppf_exact_zero_scale. reflexivity. }
  split; [|split].
  - intros Hs.
    assert (Hsc : 0 < sample_std data / sqrt (INR (length data)))
      by (apply Rdiv_lt_0_compat; assumption).
    rewrite !norm_ppf_exact_pos by (try assumption; lra).
    eexists _, _. split; [reflexivity|].
    rewrite H95. split; [ring | nra].
  - exact Hzero.
  - intros v Hall. apply Hzero. apply (sample_std_constant v); assumption.
Qed.

Lemma logistic_quantile_symmetric : quantile_symmetric logistic_quantile.
Proof.
  intros q Hq. unfold logistic_quantile.
  replace ((1 - q) / (1 - (1 - q))) with (/ (q / (1 - q))) by (field; lra).
  apply ln_Rinv. apply Rdiv_lt_0_compat; lra.
Qed.

Lemma logistic_quantile_increasing : quantile_increasing logistic_quantile.
Proof.
  intros p q Hp Hpq Hq. unfold logistic_quantile.
  apply ln_increasing; [apply Rdiv_lt_0_compat; lra|].
  replace (p / (1 - p)) with (p * (1 - q) / ((1 - p) * (1 - q))) by (field; lra).
  replace (q / (1 - q)) with (q * (1 - p) / ((1 - p) * (1 - q))) by (field; lra).
  apply Rmult_lt_compat_r; [apply Rinv_0_lt_compat; nra | nra].
Qed.

Lemma sample_std_1_3 : sample_std [1; 3] = 1.
Proof.
  unfold sample_std, sample_var, arithmetic_mean. simpl.
  match goal with |- sqrt ?v = 1 => replace v with 1 by field end.
  apply sqrt_1.
Qed.

Lemma C10_witness :
  exists low high : R,
    compute_ci exact logistic_quantile (map Fin [1; 3]) = (Fin low, Fin high) /\
    arithmetic_mean [1; 3] - low = high - arithmetic_mean [1; 3] /\
    low < high.
Proof.
  apply (proj1 (C10_confidence_interval logistic_quantile [1; 3]
                  logistic_quantile_symmetric logistic_quantile_increasing
                  ltac:(discriminate))).
  rewrite sample_std_1_3. lra.
Defined.

(** * Further properties of the code *)

(** ** The two means *)

Lemma Rsum_between (lo hi : R) xs :
  Forall (fun x => lo <= x <= hi) xs ->
  INR (length xs) * lo <= Rsum xs <= INR (length xs) * hi.
Proof.
  induction 1 as [|x xs Hx _ IH]; [simpl; lra|].
  change (Rsum (x :: xs)) with (x + Rsum xs).
  change (length (x :: xs)) with (S (length xs)). rewrite S_INR. lra.
Qed.

Lemma Rprod_between (lo hi : R) xs :
  0 < lo -> Forall (fun x => lo <= x <= hi) xs ->
  lo ^ length xs <= Rprod xs <= hi ^ length xs.
Proof.
  intros Hlo. induction 1 as [|x xs Hx _ IH]; [simpl; lra|].
  change (Rprod (x :: xs)) with (x * Rprod xs).
  change (length (x :: xs)) with (S (length xs)).
  assert (Hl : 0 < lo ^ length xs) by (apply pow_lt, Hlo).
  simpl pow. split.
  - apply Rmult_le_compat; lra.
  - apply Rmult_le_compat; lra.
Qed.

Lemma between_all_positive (lo hi : R) xs :
  0 < lo -> Forall (fun x => lo <= x <= hi) xs -> all_positive xs.
Proof.
  intros Hlo H. unfold all_positive.
  induction H as [|x xs Hx _ IH]; constructor; [lra | assumption].
Qed.

Lemma arithmetic_mean_between (lo hi : R) xs :
  xs <> [] -> Forall (fun x => lo <= x <= hi) xs ->
  lo <= arithmetic_mean xs <= hi.
Proof.
  intros Hne Hall.
  pose proof (INR_length_pos xs Hne) as Hn.
  destruct (Rsum_between lo hi xs Hall) as [H1 H2].
  unfold arithmetic_mean. split.
  - apply Rmult_le_reg_r with (INR (length xs)); [assumption|].
    unfold Rdiv. rewrite Rmult_assoc, Rinv_l by lra. lra.
  - apply Rmult_le_reg_r with (INR (length xs)); [assumption|].
    unfold Rdiv. rewrite Rmult_assoc, Rinv_l by lra. lra.
Qed.

(** X1: the arithmetic mean of a nonempty sequence lies between any lower
    and upper bound of its elements; in particular it never exceeds the
    highest score. *)
Theorem X1_amean_between (lo hi : R) (xs : list R) :
  xs <> [] -> Forall (fun x => lo <= x <= hi) xs ->
  exists a : R, amean exact (map Fin xs) = Fin a /\ lo <= a <= hi.
Proof.
  intros Hne Hall. exists (arithmetic_mean xs).
  split; [apply amean_exact, Hne | apply arithmetic_mean_between; assumption].
Qed.

Lemma X1_witness :
  exists a : R, amean exact (map Fin [9; 12]) = Fin a /\ 9 <= a <= 12.
Proof.
  apply (X1_amean_between 9 12 [9; 12]); [discriminate|].
  repeat constructor; lra.
Defined.

(** X2: the geometric mean of a nonempty sequence of positive scores is a
    real number between any positive lower bound and any upper bound of the
    scores, and it is at most the arithmetic mean. *)
Theorem X2_gmean_between (lo hi : R) (xs : list R) :
  xs <> [] -> 0 < lo -> Forall (fun x => lo <= x <= hi) xs ->
  exists g a : R,
    gmean exact (map Fin xs) = Ok (Fin g) /\
    amean exact (map Fin xs) = Fin a /\
    lo <= g /\ g <= a /\ a <= hi.
Proof.
  intros Hne Hlo Hall.
  pose proof (between_all_positive lo hi xs Hlo Hall) as Hpos.
  pose proof (Rprod_positive xs Hpos) as Hp.
  pose proof (length_pos_nat xs Hne) as Hn.
  exists (geometric_mean xs), (arithmetic_mean xs).
  split; [apply gmean_exact_pos; assumption|].
  split; [apply amean_exact, Hne|].
  destruct (Rprod_between lo hi xs Hlo Hall) as [H1 _].
  split; [|split].
  - unfold geometric_mean.
    rewrite <- (Rpower_of_pow lo (length xs) Hlo Hn) at 1.
    apply Rle_Rpower_l.
    + left. apply inv_length_pos, Hne.
    + split; [apply pow_lt, Hlo | assumption].
  - apply AM_GM; assumption.
  - apply (arithmetic_mean_between lo hi xs Hne Hall).
Qed.

Lemma X2_witness :
  exists g a : R,
    gmean exact (map Fin [9; 12]) = Ok (Fin g) /\
    amean exact (map Fin [9; 12]) = Fin a /\
    9 <= g /\ g <= a /\ a <= 12.
Proof.
  apply (X2_gmean_between 9 12 [9; 12]); [discriminate | lra |].
  repeat constructor; lra.
Defined.

(** ** Scaling the scores *)

Lemma length_scaled (c : R) xs : length (scaled c xs) = length xs.
Proof. unfold scaled. apply length_map. Qed.

Lemma Rsum_scaled (c : R) xs : Rsum (scaled c xs) = c * Rsum xs.
Proof.
  induction xs as [|x xs IH]; [simpl; lra|].
  change (Rsum (scaled c (x :: xs))) with (c * x + Rsum (scaled c xs)).
  change (Rsum (x :: xs)) with (x + Rsum xs). rewrite IH. ring.
Qed.

Lemma Rprod_scaled (c : R) xs : Rprod (scaled c xs) = c ^ length xs * Rprod xs.
Proof.
  induction xs as [|x xs IH]; [simpl; lra|].
  change (Rprod (scaled c (x :: xs))) with (c * x * Rprod (scaled c xs)).
  change (Rprod (x :: xs)) with (x * Rprod xs).
  change (length (x :: xs)) with (S (length xs)). rewrite IH. simpl. ring.
Qed.

Lemma scaled_nonempty (c : R) xs : xs <> [] -> scaled c xs <> [].
Proof. destruct xs; [congruence | discriminate]. Qed.

Lemma arithmetic_mean_scaled (c : R) xs :
  xs <> [] -> arithmetic_mean (scaled c xs) = c * arithmetic_mean xs.
Proof.
  intros Hne. pose proof (INR_length_pos xs Hne) as Hn.
  unfold arithmetic_mean. rewrite Rsum_scaled, length_scaled. field. lra.
Qed.

Lemma geometric_mean_scaled (c : R) xs :
  xs <> [] -> 0 < c -> 0 < Rprod xs ->
  geometric_mean (scaled c xs) = c * geometric_mean xs.
Proof.
  intros Hne Hc Hp. pose proof (length_pos_nat xs Hne) as Hn.
  unfold geometric_mean. rewrite Rprod_scaled, length_scaled.
  rewrite <- Rpower_mult_distr by (try assumption; apply pow_lt, Hc).
  rewrite Rpower_of_pow by assumption. reflexivity.
Qed.

(** X3: multiplying every positive score by a factor [c > 0] multiplies the
    arithmetic and the geometric mean by [c], but not the combined score:
    the neutral point stays at [4], and the result is
    [c * A + k * (c * G - 4)]. *)
Theorem X3_scaling (c k : R) (xs : list R) :
  xs <> [] -> 0 < c -> all_positive xs ->
  amean exact (map Fin (scaled c xs)) = Fin (c * arithmetic_mean xs) /\
  gmean exact (map Fin (scaled c xs)) = Ok (Fin (c * geometric_mean xs)) /\
  mean_plus_gmean exact (map Fin (scaled c xs)) (Fin k)
  = Ok (Fin (c * arithmetic_mean xs + k * (c * geometric_mean xs - 4))).
Proof.
  intros Hne Hc Hpos.
  pose proof (Rprod_positive xs Hpos) as Hp.
  pose proof (scaled_nonempty c xs Hne) as Hne'.
  assert (Hp' : 0 < Rprod (scaled c xs)).
  { rewrite Rprod_scaled. apply Rmult_lt_0_compat; [apply pow_lt, Hc | assumption]. }
  assert (HG : gmean exact (map Fin (scaled c xs)) = Ok (Fin (c * geometric_mean xs))).
  { rewrite gmean_exact_pos by assumption.
    rewrite geometric_mean_scaled by assumption. reflexivity. }
  split; [|split].
  - rewrite amean_exact by assumption. rewrite arithmetic_mean_scaled by assumption.
    reflexivity.
  - exact HG.
  - rewrite (mean_plus_gmean_exact _ k _ Hne' HG).
    rewrite arithmetic_mean_scaled by assumption. reflexivity.
Qed.

Lemma X3_witness :
  amean exact (map Fin (scaled 10 [9; 12])) = Fin (10 * arithmetic_mean [9; 12]) /\
  gmean exact (map Fin (scaled 10 [9; 12])) = Ok (Fin (10 * geometric_mean [9; 12])) /\
  mean_plus_gmean exact (map Fin (scaled 10 [9; 12])) (Fin 1)
  = Ok (Fin (10 * arithmetic_mean [9; 12] + 1 * (10 * geometric_mean [9; 12] - 4))).
Proof.
  apply (X3_scaling 10 1 [9; 12]); [discriminate | lra |].
  repeat constructor; lra.
Defined.

(** ** The empty sequence *)

(** X4: on the empty sequence [amean] does not raise, it returns NaN (the
    quotient [0.0 / 0]), while [gmean] raises [ZeroDivisionError] through
    [1/n]; this holds whatever the rounding. *)
Theorem X4_means_of_empty (rnd : R -> R) :
  amean rnd [] = NaN /\ gmean rnd [] = Raise ZeroDivisionError.
Proof.
  split; [|reflexivity].
  unfold amean, np_sum, fdiv. simpl.
  rewrite !is_zero_true by reflexivity. reflexivity.
Qed.

(** ** Penalty and bonus *)

Lemma Rprod_above (b : R) xs :
  0 < b -> xs <> [] -> Forall (fun x => b < x) xs -> b ^ length xs < Rprod xs.
Proof.
  intros Hb Hne Hall. induction Hall as [|x xs Hx Hxs IH]; [congruence|].
  change (Rprod (x :: xs)) with (x * Rprod xs).
  change (length (x :: xs)) with (S (length xs)). simpl pow.
  assert (Hbn : 0 < b ^ length xs) by (apply pow_lt, Hb).
  destruct xs as [|y ys].
  - simpl. lra.
  - assert (IH' : b ^ length (y :: ys) < Rprod (y :: ys)) by (apply IH; discriminate).
    apply Rmult_gt_0_lt_compat; lra.
Qed.

Lemma Rprod_below (b : R) xs :
  xs <> [] -> Forall (fun x => 0 < x < b) xs -> Rprod xs < b ^ length xs.
Proof.
  intros Hne Hall. induction Hall as [|x xs Hx Hxs IH]; [congruence|].
  change (Rprod (x :: xs)) with (x * Rprod xs).
  change (length (x :: xs)) with (S (length xs)). simpl pow.
  destruct xs as [|y ys].
  - simpl. lra.
  - assert (IH' : Rprod (y :: ys) < b ^ length (y :: ys)) by (apply IH; discriminate).
    assert (Hp : 0 < Rprod (y :: ys)).
    { apply Rprod_positive. unfold all_positive.
      clear - Hxs. induction Hxs; constructor; [lra | assumption]. }
    apply Rmult_gt_0_lt_compat; lra.
Qed.

Lemma geometric_mean_above (b : R) xs :
  0 < b -> xs <> [] -> Forall (fun x => b < x) xs -> b < geometric_mean xs.
Proof.
  intros Hb Hne Hall. pose proof (length_pos_nat xs Hne) as Hn.
  unfold geometric_mean.
  rewrite <- (Rpower_of_pow b (length xs) Hb Hn) at 1.
  apply Rlt_Rpower_l; [apply inv_length_pos, Hne|].
  split; [apply pow_lt, Hb | apply Rprod_above; assumption].
Qed.

Lemma geometric_mean_below (b : R) xs :
  0 < b -> xs <> [] -> Forall (fun x => 0 < x < b) xs -> geometric_mean xs < b.
Proof.
  intros Hb Hne Hall. pose proof (length_pos_nat xs Hne) as Hn.
  unfold geometric_mean.
  rewrite <- (Rpower_of_pow b (length xs) Hb Hn) at 1.
  apply Rlt_Rpower_l; [apply inv_length_pos, Hne|].
  split; [|apply Rprod_below; assumption].
  apply Rprod_positive. unfold all_positive.
  clear - Hall. induction Hall; constructor; [lra | assumption].
Qed.

Lemma above_all_positive (b : R) xs :
  0 < b -> Forall (fun x => b < x) xs -> all_positive xs.
Proof.
  intros Hb H. unfold all_positive.
  induction H; constructor; [lra | assumption].
Qed.

Lemma below_all_positive (b : R) xs :
  Forall (fun x => 0 < x < b) xs -> all_positive xs.
Proof.
  intros H. unfold all_positive.
  induction H; constructor; [lra | assumption].
Qed.

(** X5: with a positive weight, scores that are all above the neutral point
    [4] are penalised, the combined score is above their arithmetic mean;
    scores that are all positive and below [4] get a bonus, the combined
    score is below their arithmetic mean. *)
Theorem X5_penalty_and_bonus (xs : list R) (k : R) :
  xs <> [] -> 0 < k ->
  (Forall (fun x => 4 < x) xs ->
   exists r : R,
     returns (mean_plus_gmean exact (map Fin xs) (Fin k)) r /\
     arithmetic_mean xs < r) /\
  (Forall (fun x => 0 < x < 4) xs ->
   exists r : R,
     returns (mean_plus_gmean exact (map Fin xs) (Fin k)) r /\
     r < arithmetic_mean xs).
Proof.
  intros Hne Hk. split; intros Hall.
  - pose proof (geometric_mean_above 4 xs ltac:(lra) Hne Hall) as HG.
    exists (combine xs k 4). split.
    + apply mean_plus_gmean_combine; [assumption|].
      apply Rprod_positive, (above_all_positive 4); [lra | assumption].
    + unfold combine. nra.
  - pose proof (geometric_mean_below 4 xs ltac:(lra) Hne Hall) as HG.
    exists (combine xs k 4). split.
    + apply mean_plus_gmean_combine; [assumption|].
      apply Rprod_positive, (below_all_positive 4); assumption.
    + unfold combine. nra.
Qed.

Lemma X5_witness :
  (exists r : R,
     returns (mean_plus_gmean exact (map Fin [9; 12]) (Fin 1)) r /\
     arithmetic_mean [9; 12] < r) /\
  (exists r : R,
     returns (mean_plus_gmean exact (map Fin [2; 3]) (Fin 1)) r /\
     r < arithmetic_mean [2; 3]).
Proof.
  split.
  - apply (proj1 (X5_penalty_and_bonus [9; 12] 1 ltac:(discriminate) ltac:(lra))).
    repeat constructor; lra.
  - apply (proj2 (X5_penalty_and_bonus [2; 3] 1 ltac:(discriminate) ltac:(lra))).
    repeat constructor; lra.
Defined.

(** X8: the weight scales the penalty and the bonus: for scores all above
    [4] the combined score grows strictly with [k], for positive scores all
    below [4] it falls strictly with [k]. *)
Theorem X8_weight (xs : list R) (k1 k2 : R) :
  xs <> [] -> k1 < k2 ->
  (Forall (fun x => 4 < x) xs ->
   exists r1 r2 : R,
     returns (mean_plus_gmean exact (map Fin xs) (Fin k1)) r1 /\
     returns (mean_plus_gmean exact (map Fin xs) (Fin k2)) r2 /\ r1 < r2) /\
  (Forall (fun x => 0 < x < 4) xs ->
   exists r1 r2 : R,
     returns (mean_plus_gmean exact (map Fin xs) (Fin k1)) r1 /\
     returns (mean_plus_gmean exact (map Fin xs) (Fin k2)) r2 /\ r2 < r1).
Proof.
  intros Hne Hk. split; intros Hall.
  - pose proof (geometric_mean_above 4 xs ltac:(lra) Hne Hall) as HG.
    assert (Hp : 0 < Rprod xs)
      by (apply Rprod_positive, (above_all_positive 4); [lra | assumption]).
    exists (combine xs k1 4), (combine xs k2 4).
    split; [apply mean_plus_gmean_combine; assumption|].
    split; [apply mean_plus_gmean_combine; assumption|].
    unfold combine. nra.
  - pose proof (geometric_mean_below 4 xs ltac:(lra) Hne Hall) as HG.
    assert (Hp : 0 < Rprod xs)
      by (apply Rprod_positive, (below_all_positive 4); assumption).
    exists (combine xs k1 4), (combine xs k2 4).
    split; [apply mean_plus_gmean_combine; assumption|].
    split; [apply mean_plus_gmean_combine; assumption|].
    unfold combine. nra.
Qed.

Lemma X8_witness :
  exists r1 r2 : R,
    returns (mean_plus_gmean exact (map Fin [9; 12]) (Fin 1)) r1 /\
    returns (mean_plus_gmean exact (map Fin [9; 12]) (Fin 2)) r2 /\ r1 < r2.
Proof.
  apply (proj1 (X8_weight [9; 12] 1 2 ltac:(discriminate) ltac:(lra))).
  repeat constructor; lra.
Defined.

(** X7: with weight [0] the combiner is the arithmetic mean whenever the
    product of the scores is non-negative; on a negative product of two or
    more scores it still returns NaN. *)
Theorem X7_zero_weight (xs : list R) :
  xs <> [] ->
  (0 <= Rprod xs ->
   mean_plus_gmean exact (map Fin xs) (Fin 0) = Ok (amean exact (map Fin xs))) /\
  ((2 <= length xs)%nat -> Rprod xs < 0 ->
   mean_plus_gmean exact (map Fin xs) (Fin 0) = Ok NaN /\
   amean exact (map Fin xs) = Fin (arithmetic_mean xs)).
Proof.
  intros Hne. split.
  - intros Hp.
    destruct (mean_plus_gmean_nonneg_product xs 0 Hne Hp) as (G & _ & _ & HG).
    unfold returns in HG. rewrite HG, amean_exact by assumption.
    do 2 f_equal. ring.
  - intros Hlen Hp. split; [apply mean_plus_gmean_neg_product; assumption|].
    apply amean_exact, Hne.
Qed.

Lemma X7_witness :
  mean_plus_gmean exact (map Fin [9; 12]) (Fin 0)
  = Ok (amean exact (map Fin [9; 12])) /\
  mean_plus_gmean exact (map Fin [-3; 5]) (Fin 0) = Ok NaN.
Proof.
  split.
  - apply (proj1 (X7_zero_weight [9; 12] ltac:(discriminate))). simpl. lra.
  - apply (proj2 (X7_zero_weight [-3; 5] ltac:(discriminate))); simpl; [lia | lra].
Defined.

(** ** Unequal scores *)

Lemma Rprod_exp_bound_strict (A : R) (xs : list R) :
  0 < A -> all_positive xs -> Exists (fun x => x <> A) xs ->
  Rprod xs < A ^ length xs * exp (Rsum xs / A - INR (length xs)).
Proof.
  intros HA Hpos Hex. induction Hex as [x xs Hx | x xs Hex IH].
  - apply Forall_cons_iff in Hpos. destruct Hpos as [Hx0 Hxs].
    pose proof (Rprod_exp_bound A xs HA Hxs) as Hb.
    pose proof (Rprod_positive xs Hxs) as Hp.
    change (Rprod (x :: xs)) with (x * Rprod xs).
    change (Rsum (x :: xs)) with (x + Rsum xs).
    change (length (x :: xs)) with (S (length xs)).
    rewrite S_INR. change (A ^ S (length xs)) with (A * A ^ length xs).
    replace ((x + Rsum xs) / A - (INR (length xs) + 1))
      with ((x / A - 1) + (Rsum xs / A - INR (length xs))) by (field; lra).
    rewrite exp_plus.
    assert (Hx1 : x < A * exp (x / A - 1)).
    { assert (Hne : x / A - 1 <> 0).
      { intros H0. apply Hx. apply Rminus_diag_uniq in H0.
        apply (Rmult_eq_compat_r A) in H0.
        unfold Rdiv in H0. rewrite Rmult_assoc, Rinv_l in H0 by lra. lra. }
      pose proof (exp_ineq1 (x / A - 1) Hne) as He.
      replace x with (A * (1 + (x / A - 1))) at 1 by (field; lra).
      apply Rmult_lt_compat_l; lra. }
    replace (A * A ^ length xs *
             (exp (x / A - 1) * exp (Rsum xs / A - INR (length xs))))
      with (A * exp (x / A - 1) *
            (A ^ length xs * exp (Rsum xs / A - INR (length xs)))) by ring.
    apply Rlt_le_trans with (A * exp (x / A - 1) * Rprod xs).
    + apply Rmult_lt_compat_r; assumption.
    + apply Rmult_le_compat_l; [lra | assumption].
  - apply Forall_cons_iff in Hpos. destruct Hpos as [Hx0 Hxs].
    specialize (IH Hxs).
    pose proof (Rprod_positive xs Hxs) as Hp.
    change (Rprod (x :: xs)) with (x * Rprod xs).
    change (Rsum (x :: xs)) with (x + Rsum xs).
    change (length (x :: xs)) with (S (length xs)).
    rewrite S_INR. change (A ^ S (length xs)) with (A * A ^ length xs).
    replace ((x + Rsum xs) / A - (INR (length xs) + 1))
      with ((x / A - 1) + (Rsum xs / A - INR (length xs))) by (field; lra).
    rewrite exp_plus.
    assert (Hx1 : x <= A * exp (x / A - 1)).
    { pose proof (exp_ineq1_le (x / A - 1)) as He.
      replace x with (A * (1 + (x / A - 1))) at 1 by (field; lra).
      apply Rmult_le_compat_l; lra. }
    replace (A * A ^ length xs *
             (exp (x / A - 1) * exp (Rsum xs / A - INR (length xs))))
      with (A * exp (x / A - 1) *
            (A ^ length xs * exp (Rsum xs / A - INR (length xs)))) by ring.
    apply Rlt_le_trans with (x * (A ^ length xs * exp (Rsum xs / A - INR (length xs)))).
    + apply Rmult_lt_compat_l; assumption.
    + apply Rmult_le_compat_r; [lra | assumption].
Qed.

Lemma AM_GM_strict (xs : list R) :
  xs <> [] -> all_positive xs ->
  Exists (fun x => x <> arithmetic_mean xs) xs ->
  geometric_mean xs < arithmetic_mean xs.
Proof.
  intros Hne Hpos Hex.
  pose proof (INR_length_pos xs Hne) as Hn.
  pose proof (Rsum_positive xs Hne Hpos) as Hs.
  pose proof (Rprod_positive xs Hpos) as Hp.
  assert (HA : 0 < arithmetic_mean xs).
  { unfold arithmetic_mean. apply Rdiv_lt_0_compat; assumption. }
  pose proof (Rprod_exp_bound_strict (arithmetic_mean xs) xs HA Hpos Hex) as Hb.
  replace (Rsum xs / arithmetic_mean xs - INR (length xs)) with 0 in Hb
    by (unfold arithmetic_mean; field; lra).
  rewrite exp_0, Rmult_1_r in Hb.
  unfold geometric_mean.
  rewrite <- (Rpower_of_pow (arithmetic_mean xs) (length xs) HA
                (length_pos_nat xs Hne)) at 1.
  apply Rlt_Rpower_l; [apply inv_length_pos, Hne | split; assumption].
Qed.

Lemma unequal_off_mean (m x y : R) xs :
  In x xs -> In y xs -> x <> y -> Exists (fun z => z <> m) xs.
Proof.
  intros Hx Hy Hxy. apply List.Exists_exists.
  destruct (Req_dec_T x m) as [Hxm | Hxm].
  - exists y. split; [assumption | congruence].
  - exists x. split; assumption.
Qed.

(** X6: a discrepancy between the scores brings the combined score down:
    for positive scores that are not all equal and a positive weight, the
    combiner returns strictly less than it returns when every score is
    replaced by the arithmetic mean of the scores. *)
Theorem X6_discrepancy (xs : list R) (k x y : R) :
  all_positive xs -> In x xs -> In y xs -> x <> y -> 0 < k ->
  exists r r' : R,
    returns (mean_plus_gmean exact (map Fin xs) (Fin k)) r /\
    returns (mean_plus_gmean exact
               (map Fin (repeat (arithmetic_mean xs) (length xs))) (Fin k)) r' /\
    r < r'.
Proof.
  intros Hpos Hx Hy Hxy Hk.
  assert (Hne : xs <> []) by (destruct xs; [destruct Hx | discriminate]).
  pose proof (Rsum_positive xs Hne Hpos) as Hs.
  pose proof (INR_length_pos xs Hne) as Hn.
  assert (HA : 0 < arithmetic_mean xs).
  { unfold arithmetic_mean. apply Rdiv_lt_0_compat; assumption. }
  pose proof (AM_GM_strict xs Hne Hpos
                (unequal_off_mean (arithmetic_mean xs) x y xs Hx Hy Hxy)) as HG.
  exists (combine xs k 4),
         (arithmetic_mean xs + k * (arithmetic_mean xs - 4)).
  split; [apply mean_plus_gmean_combine; [assumption | apply Rprod_positive, Hpos]|].
  split; [apply mean_plus_gmean_repeat; [apply length_pos_nat, Hne | assumption]|].
  unfold combine. nra.
Qed.

Lemma X6_witness :
  exists r r' : R,
    returns (mean_plus_gmean exact (map Fin [3; 5]) (Fin 1)) r /\
    returns (mean_plus_gmean exact
               (map Fin (repeat (arithmetic_mean [3; 5]) (length [3; 5]))) (Fin 1)) r' /\
    r < r'.
Proof.
  apply (X6_discrepancy [3; 5] 1 3 5);
    [repeat constructor; lra | simpl; tauto | simpl; tauto | lra | lra].
Defined.

(** ** Computing by hand *)

Lemma int_scores_map (zs : list Z) : int_scores zs = map Fin (map IZR zs).
Proof. unfold int_scores. rewrite map_map. reflexivity. Qed.





(** ** Two equal integer scores in binary64 *)

(** X11: for two equal integer scores [v] with [0 < v < 2^26] and the
    default weight, no operation of the combiner rounds: the binary64
    result is exactly [v + (v - 4)], the result of exact arithmetic. *)
Theorem X11_equal_pair_exact (v : Z) :
  (0 < v < 2 ^ 26)%Z ->
  mean_plus_gmean round64 (int_scores [v; v]) (Fin 1)
  = mean_plus_gmean exact (int_scores [v; v]) (Fin 1) /\
  returns (mean_plus_gmean round64 (int_scores [v; v]) (Fin 1)) (IZR v + (IZR v - 4)).
Proof.
  intros Hv.
  assert (H64 : mean_plus_gmean round64 (int_scores [v; v]) (Fin 1)
                = Ok (Fin (IZR v + (IZR v - 4)))).
  { change (int_scores [v; v]) with [Fin (IZR v); Fin (IZR v)].
    rewrite mean_plus_gmean_pair64 by assumption.
    rewrite plus_IZR, minus_IZR. reflexivity. }
  split; [|exact H64].
  rewrite H64. change (int_scores [v; v]) with [Fin (IZR v); Fin (IZR v)].
  rewrite mean_plus_gmean_pair by (apply IZR_lt; lia).
  do 2 f_equal. ring.
Qed.

Lemma X11_witness :
  mean_plus_gmean round64 (int_scores [5; 5]%Z) (Fin 1)
  = mean_plus_gmean exact (int_scores [5; 5]%Z) (Fin 1) /\
  returns (mean_plus_gmean round64 (int_scores [5; 5]%Z) (Fin 1)) (5 + (5 - 4)).
Proof. apply (X11_equal_pair_exact 5). lia. Defined.

(** ** The accuracy of the combiner in binary64 *)

Lemma combine64_error_wide (A G : R) :
  - 32 <= A <= 32 -> 0 <= G <= 33 ->
  Rabs (round64 (round64 A + round64 (1 * round64 (round64 G - 4)))
        - (A + (G - 4))) <= / 10 ^ 12.
Proof.
  intros HA HG.
  assert (Hu : / 2 ^ 53 = / 9007199254740992) by (f_equal; simpl; lra).
  pose proof (round64_abs_error A 32 ltac:(apply Rabs_le; lra)) as Ha.
  set (a := round64 A) in *.
  pose proof (round64_abs_error G 33 ltac:(apply Rabs_le; lra)) as Hg.
  set (g := round64 G) in *.
  rewrite Hu in Ha, Hg.
  pose proof (round64_abs_error (g - 4) 64 ltac:(apply Rabs_le; lra)) as H1.
  set (d1 := round64 (g - 4)) in *. rewrite Hu in H1.
  pose proof (round64_abs_error (1 * d1) 64 ltac:(apply Rabs_le; lra)) as H2.
  set (d2 := round64 (1 * d1)) in *. rewrite Hu in H2.
  pose proof (round64_abs_error (a + d2) 128 ltac:(apply Rabs_le; lra)) as H3.
  set (r := round64 (a + d2)) in *. rewrite Hu in H3.
  apply Rabs_le. simpl. lra.
Qed.

Lemma exp_near_1 (d b : R) :
  - b <= d <= b -> b <= 1 / 2 -> 1 - b <= exp d <= 1 + 2 * b.
Proof.
  intros Hd Hb. pose proof (exp_ineq1_le d) as H1.
  pose proof (exp_ineq1_le (- d)) as H2. rewrite exp_Ropp in H2.
  pose proof (exp_pos d) as Hp.
  assert (Hi : exp d * / exp d = 1) by (field; lra).
  split; [lra|].
  assert (H3 : exp d * (1 - d) <= 1) by nra.
  assert (H4 : exp d * (1 - b) <= 1) by nra.
  nra.
Qed.

Lemma Rsum_map_IZR zs : Rsum (map IZR zs) = IZR (Zsum zs).
Proof.
  induction zs as [|z zs IH]; [reflexivity|].
  change (Rsum (map IZR (z :: zs))) with (IZR z + Rsum (map IZR zs)).
  change (Zsum (z :: zs)) with (z + Zsum zs)%Z. rewrite IH, plus_IZR. reflexivity.
Qed.

Lemma Rprod_map_IZR zs : Rprod (map IZR zs) = IZR (Zprod zs).
Proof.
  induction zs as [|z zs IH]; [reflexivity|].
  change (Rprod (map IZR (z :: zs))) with (IZR z * Rprod (map IZR zs)).
  change (Zprod (z :: zs)) with (z * Zprod zs)%Z. rewrite IH, mult_IZR. reflexivity.
Qed.

Lemma all_positive_map_IZR zs :
  Forall (fun z => (0 < z)%Z) zs -> all_positive (map IZR zs).
Proof.
  unfold all_positive. induction 1 as [|z zs Hz _ IH]; simpl; constructor.
  - apply IZR_lt. assumption.
  - assumption.
Qed.

Lemma ln_small_product (P : Z) : (1 <= P < 2 ^ 53)%Z -> 0 <= ln (IZR P) < 53.
Proof.
  intros [H1 H2]. apply IZR_le in H1. apply IZR_lt in H2.
  rewrite (IZR_pow2 53) in H2 by lia.
  split.
  - destruct H1 as [Hlt | <-]; [|rewrite ln_1; lra].
    rewrite <- ln_1. left. apply ln_increasing; lra.
  - apply Rlt_trans with (ln (powerRZ 2 53)).
    + apply ln_increasing; lra.
    + rewrite ln_powerRZ_2. pose proof ln_2_lt_1. lra.
Qed.

(** The rounded exponent [1/n]. *)
Lemma round64_inv_length (n : nat) :
  (0 < n)%nat ->
  0 < round64 (1 / INR n) /\
  - (/ INR n * / 2 ^ 53) <= round64 (1 / INR n) - / INR n <= / INR n * / 2 ^ 53.
Proof.
  intros Hn. assert (Hi : 0 < INR n) by (apply lt_0_INR, Hn).
  assert (Hinv : 0 < / INR n) by (apply Rinv_0_lt_compat, Hi).
  replace (1 / INR n) with (/ INR n) by (field; lra).
  pose proof (round64_abs_error (/ INR n) (/ INR n)
                ltac:(rewrite Rabs_pos_eq; lra)) as He.
  assert (Hu : / 2 ^ 53 = / 9007199254740992) by (f_equal; simpl; lra).
  rewrite Hu in *. split; [nra | assumption].
Qed.

(** The geometric mean with the rounded exponent. *)
Lemma Rpower_rounded_exponent (P : Z) (n : nat) :
  (1 <= P < 2 ^ 53)%Z -> (0 < n)%nat ->
  Rpower (IZR P) (/ INR n) * (1 - 53 * / 2 ^ 53)
  <= Rpower (IZR P) (round64 (1 / INR n))
  <= Rpower (IZR P) (/ INR n) * (1 + 106 * / 2 ^ 53).
Proof.
  intros HP Hn.
  destruct (ln_small_product P HP) as [Hl0 Hl1].
  destruct (round64_inv_length n Hn) as [_ He].
  assert (Hi : 0 < INR n) by (apply lt_0_INR, Hn).
  assert (Hi1 : 1 <= INR n) by (apply (le_INR 1); lia).
  assert (Hinv : 0 < / INR n <= 1).
  { split; [apply Rinv_0_lt_compat, Hi|].
    rewrite <- Rinv_1. apply Rinv_le_contravar; lra. }
  assert (Hu : / 2 ^ 53 = / 9007199254740992) by (f_equal; simpl; lra).
  rewrite Hu in *.
  set (e := round64 (1 / INR n)) in *.
  set (d := (e - / INR n) * ln (IZR P)).
  assert (HG : Rpower (IZR P) e = Rpower (IZR P) (/ INR n) * exp d).
  { unfold Rpower, d. rewrite <- exp_plus. f_equal. ring. }
  rewrite HG.
  assert (Hd : - (53 * / 9007199254740992) <= d <= 53 * / 9007199254740992).
  { unfold d. set (u := / 9007199254740992) in *.
    assert (Hu0 : 0 < u) by (unfold u; lra).
    assert (Hiu : / INR n * u <= u) by nra.
    split; nra. }
  destruct (exp_near_1 d (53 * / 9007199254740992) Hd ltac:(lra)) as [Hlo Hhi].
  assert (Hpos : 0 < Rpower (IZR P) (/ INR n)) by (unfold Rpower; apply exp_pos).
  split.
  - apply Rmult_le_compat_l; lra.
  - apply Rmult_le_compat_l; lra.
Qed.

(** X10: for positive integer scores whose sum and product are below
    [2^53] and whose arithmetic mean is at most [32], the binary64 result of
    the combiner with the default weight differs from its exact result
    [A + (G - 4)] by at most [2 * 10^-12]. *)
Theorem X10_binary64_accuracy (zs : list Z) :
  zs <> [] -> small_scores zs -> IZR (Zsum zs) <= 32 * INR (length zs) ->
  exists r64 r : R,
    returns (mean_plus_gmean round64 (int_scores zs) (Fin 1)) r64 /\
    returns (mean_plus_gmean exact (int_scores zs) (Fin 1)) r /\
    Rabs (r64 - r) <= 2 / 10 ^ 12.
Proof.
  intros Hne Hs Hmean. pose proof Hs as (Hpos & HS & HP).
  pose proof (Zprod_pos zs Hpos) as HP1.
  pose proof (Zsum_nonneg zs Hpos) as HS0.
  pose proof (length_pos_nat zs Hne) as Hn.
  assert (Hi : 0 < INR (length zs)) by (apply lt_0_INR, Hn).
  assert (HPR : 0 < IZR (Zprod zs)) by (apply IZR_lt; lia).
  set (n := length zs) in *.
  set (A := IZR (Zsum zs) / INR n).
  set (G := Rpower (IZR (Zprod zs)) (/ INR n)).
  set (G' := Rpower (IZR (Zprod zs)) (round64 (1 / INR n))).
  assert (HA : 0 <= A <= 32).
  { unfold A. split.
    - apply Rmult_le_pos; [apply IZR_le; lia | left; apply Rinv_0_lt_compat, Hi].
    - apply Rmult_le_reg_r with (INR n); [assumption|].
      unfold Rdiv. rewrite Rmult_assoc, Rinv_l by lra. lra. }
  assert (Hxs : map IZR zs <> []) by (destruct zs; [congruence | discriminate]).
  assert (HGA : 0 < G <= A).
  { split; [unfold G, Rpower; apply exp_pos|].
    pose proof (AM_GM (map IZR zs) Hxs (all_positive_map_IZR zs Hpos)) as H.
    unfold geometric_mean, arithmetic_mean in H.
    rewrite Rsum_map_IZR, Rprod_map_IZR, length_map in H. exact H. }
  destruct (Rpower_rounded_exponent (Zprod zs) n ltac:(lia) Hn) as [HG1 HG2].
  fold G G' in HG1, HG2.
  assert (Hu : / 2 ^ 53 = / 9007199254740992) by (f_equal; simpl; lra).
  rewrite Hu in HG1, HG2.
  assert (HG' : 0 <= G' <= 33) by (split; nra).
  (* the code in binary64 *)
  assert (H64 : mean_plus_gmean round64 (int_scores zs) (Fin 1)
    = Ok (Fin (round64 (round64 A + round64 (1 * round64 (round64 G' - 4)))))).
  { rewrite mean_plus_gmean_int_unfold by assumption. fold n.
    destruct (round64_inv_length n Hn) as [He0 _].
    unfold py_truediv. destruct n as [|n']; [lia|].
    unfold bind, fpow, fdiv.
    rewrite !is_zero_false by lra.
    rewrite is_pos_true by assumption. reflexivity. }
  (* the code in exact arithmetic *)
  assert (Hex : mean_plus_gmean exact (int_scores zs) (Fin 1)
    = Ok (Fin (A + (G - 4)))).
  { rewrite int_scores_map, mean_plus_gmean_combine;
      [| assumption | rewrite Rprod_map_IZR; assumption].
    unfold combine, arithmetic_mean, geometric_mean.
    rewrite Rsum_map_IZR, Rprod_map_IZR, length_map. fold n A G.
    do 2 f_equal. ring. }
  eexists _, _. split; [exact H64 | split; [exact Hex|]].
  pose proof (combine64_error_wide A G' ltac:(lra) HG') as Herr.
  apply Rabs_bound_inv in Herr. apply Rabs_le. simpl in *. nra.
Qed.

Lemma X10_witness :
  exists r64 r : R,
    returns (mean_plus_gmean round64 (int_scores [4; 5; 5]%Z) (Fin 1)) r64 /\
    returns (mean_plus_gmean exact (int_scores [4; 5; 5]%Z) (Fin 1)) r /\
    Rabs (r64 - r) <= 2 / 10 ^ 12.
Proof.
  apply (X10_binary64_accuracy [4; 5; 5]%Z).
  - discriminate.
  - split; [repeat constructor | split; reflexivity].
  - change (14 <= 32 * (1 + 1 + 1)). lra.
Defined.

(** ** The confidence interval: shape *)

Lemma standard_error_pos data :
  data <> [] -> 0 < sample_std data -> 0 < standard_error data.
Proof.
  intros Hne Hs. unfold standard_error.
  apply Rdiv_lt_0_compat; [assumption|].
  apply sqrt_lt_R0, INR_length_pos, Hne.
Qed.

Lemma sample_std_nonneg data : 0 <= sample_std data.
Proof. unfold sample_std. apply sqrt_pos. Qed.

(** The interval for a positive standard deviation. *)
Lemma compute_ci_exact_pos (ndtri : R -> R) data :
  quantile_symmetric ndtri -> quantile_increasing ndtri ->
  data <> [] -> 0 < sample_std data ->
  compute_ci exact ndtri (map Fin data)
  = (Fin (arithmetic_mean data - margin ndtri data),
     Fin (arithmetic_mean data + margin ndtri data)) /\
  0 < margin ndtri data.
Proof.
  intros Hsym Hinc Hne Hs.
  destruct (quantile_lower_upper ndtri Hsym Hinc) as [H95 H5].
  pose proof (standard_error_pos data Hne Hs) as Hse.
  rewrite compute_ci_exact_unfold by assumption.
  fold (standard_error data).
  rewrite !norm_ppf_exact_pos by (try assumption; lra).
  unfold margin. split.
  - f_equal; f_equal; [|ring].
    replace (ndtri (5 / 100)) with (- ndtri (95 / 100)) by lra. ring.
  - apply Rmult_lt_0_compat; lra.
Qed.

(** The interval for a zero standard deviation. *)
Lemma compute_ci_exact_zero (ndtri : R -> R) data :
  data <> [] -> sample_std data = 0 ->
  compute_ci exact ndtri (map Fin data) = (NaN, NaN).
Proof.
  intros Hne Hs. rewrite compute_ci_exact_unfold by assumption. rewrite Hs.
  replace (0 / sqrt (INR (length data))) with 0 by (unfold Rdiv; ring).
  rewrite !norm_ppf_exact_zero_scale. reflexivity.
Qed.

(** X12: on empty data [compute_ci] raises nothing and returns NaN for both
    ends, whatever the rounding and the quantile function; the experiment
    on it answers False. *)
Theorem X12_empty_data (rnd ndtri : R -> R) (mu : float64) :
  compute_ci rnd ndtri [] = (NaN, NaN) /\
  run_experiment rnd ndtri [] mu = false.
Proof.
  assert (H : compute_ci rnd ndtri [] = (NaN, NaN)).
  { unfold compute_ci, np_mean, np_std, np_var, np_sum. simpl.
    rewrite !is_zero_true by reflexivity. reflexivity. }
  split; [exact H|]. unfold run_experiment. rewrite H. reflexivity.
Qed.

(** X13: for nonempty data with a positive standard deviation the interval
    is [m - e, m + e], where [m] is the sample mean and the margin [e] is
    [ndtri(0.95) * s / sqrt(n)]; the margin is positive, so the mean lies
    strictly inside, and [np.diff] of the interval is [2 * e]. *)
Theorem X13_interval_shape (ndtri : R -> R) (data : list R) :
  quantile_symmetric ndtri -> quantile_increasing ndtri ->
  data <> [] -> 0 < sample_std data ->
  exists low high : R,
    compute_ci exact ndtri (map Fin data) = (Fin low, Fin high) /\
    low = arithmetic_mean data
          - ndtri (95 / 100) * (sample_std data / sqrt (INR (length data))) /\
    high = arithmetic_mean data
           + ndtri (95 / 100) * (sample_std data / sqrt (INR (length data))) /\
    low < arithmetic_mean data < high /\
    np_diff exact (compute_ci exact ndtri (map Fin data))
    = Fin (2 * (ndtri (95 / 100) * (sample_std data / sqrt (INR (length data))))).
Proof.
  intros Hsym Hinc Hne Hs.
  destruct (compute_ci_exact_pos ndtri data Hsym Hinc Hne Hs) as [Hci Hm].
  unfold margin, standard_error in Hci, Hm.
  eexists _, _. split; [exact Hci|]. split; [reflexivity|]. split; [reflexivity|].
  split; [lra|].
  rewrite Hci. unfold np_diff, fsub, exact. simpl. f_equal. ring.
Qed.

Lemma X13_witness :
  exists low high : R,
    compute_ci exact logistic_quantile (map Fin [1; 3]) = (Fin low, Fin high) /\
    low = arithmetic_mean [1; 3]
          - logistic_quantile (95 / 100)
            * (sample_std [1; 3] / sqrt (INR (length [1; 3]))) /\
    high = arithmetic_mean [1; 3]
           + logistic_quantile (95 / 100)
             * (sample_std [1; 3] / sqrt (INR (length [1; 3]))) /\
    low < arithmetic_mean [1; 3] < high /\
    np_diff exact (compute_ci exact logistic_quantile (map Fin [1; 3]))
    = Fin (2 * (logistic_quantile (95 / 100)
                * (sample_std [1; 3] / sqrt (INR (length [1; 3]))))).
Proof.
  apply (X13_interval_shape logistic_quantile [1; 3]
           logistic_quantile_symmetric logistic_quantile_increasing
           ltac:(discriminate)).
  rewrite sample_std_1_3. lra.
Defined.

(** ** The experiment *)

Lemma flt_Fin (a b : R) : flt (Fin a) (Fin b) = true <-> a < b.
Proof.
  unfold flt. destruct (Rlt_dec a b); split; intros H;
    try reflexivity; try assumption; try discriminate; contradiction.
Qed.

(** X14: for a sample with a positive standard deviation the experiment
    answers True exactly when the sample mean is closer to [mu] than the
    margin [ndtri(0.95) * s / sqrt(n)]. *)
Theorem X14_experiment (ndtri : R -> R) (data : list R) (mu : R) :
  quantile_symmetric ndtri -> quantile_increasing ndtri ->
  data <> [] -> 0 < sample_std data ->
  run_experiment exact ndtri (map Fin data) (Fin mu) = true
  <-> Rabs (arithmetic_mean data - mu)
      < ndtri (95 / 100) * (sample_std data / sqrt (INR (length data))).
Proof.
  intros Hsym Hinc Hne Hs.
  destruct (compute_ci_exact_pos ndtri data Hsym Hinc Hne Hs) as [Hci Hm].
  unfold run_experiment. rewrite Hci.
  unfold margin, standard_error in *.
  set (e := ndtri (95 / 100) * (sample_std data / sqrt (INR (length data)))) in *.
  rewrite andb_true_iff, !flt_Fin. split.
  - intros [H1 H2]. apply Rabs_def1; lra.
  - intros H. apply Rabs_def2 in H. lra.
Qed.

Lemma X14_witness :
  run_experiment exact logistic_quantile (map Fin [1; 3]) (Fin 2) = true
  <-> Rabs (arithmetic_mean [1; 3] - 2)
      < logistic_quantile (95 / 100)
        * (sample_std [1; 3] / sqrt (INR (length [1; 3]))).
Proof.
  apply (X14_experiment logistic_quantile [1; 3] 2
           logistic_quantile_symmetric logistic_quantile_increasing
           ltac:(discriminate)).
  rewrite sample_std_1_3. lra.
Defined.

(** X15: in exact arithmetic, on a nonempty sample whose values are all
    equal the experiment answers False for every [mu], also for [mu] equal
    to that value: the standard deviation is zero, both ends of the
    interval are NaN and every comparison with NaN is false. *)
Theorem X15_experiment_constant (ndtri : R -> R) (data : list R) (v : R)
    (mu : float64) :
  data <> [] -> Forall (fun x => x = v) data ->
  run_experiment exact ndtri (map Fin data) mu = false.
Proof.
  intros Hne Hall. unfold run_experiment.
  rewrite (compute_ci_exact_zero ndtri data Hne (sample_std_constant v data Hne Hall)).
  reflexivity.
Qed.

Lemma X15_witness :
  run_experiment exact logistic_quantile (map Fin [5; 5; 5]) (Fin 5) = false.
Proof.
  apply (X15_experiment_constant logistic_quantile [5; 5; 5] 5 (Fin 5));
    [discriminate | repeat constructor].
Defined.

(** ** The relative width *)

(** X16: for data with a positive standard deviation the relative width
    [np.diff(ci90) / m * 100] is [2 * e / m * 100] with the margin [e] when
    the mean [m] is not zero; when the mean is zero the division does not
    raise, the result is [+inf]. *)
Theorem X16_width_percent (ndtri : R -> R) (data : list R) :
  quantile_symmetric ndtri -> quantile_increasing ndtri ->
  data <> [] -> 0 < sample_std data ->
  (arithmetic_mean data <> 0 ->
   width_percent exact ndtri (map Fin data)
   = Fin (2 * margin ndtri data / arithmetic_mean data * 100)) /\
  (arithmetic_mean data = 0 ->
   width_percent exact ndtri (map Fin data) = Inf false).
Proof.
  intros Hsym Hinc Hne Hs.
  destruct (compute_ci_exact_pos ndtri data Hsym Hinc Hne Hs) as [Hci Hm].
  unfold width_percent. rewrite Hci, np_mean_exact by assumption.
  unfold np_diff, fsub, exact. cbn [fst snd].
  set (m := arithmetic_mean data) in *. set (e := margin ndtri data) in *.
  replace (m + e - (m - e)) with (2 * e) by ring.
  split; intros Hmean.
  - unfold fdiv. rewrite is_zero_false by assumption.
    unfold fmul. reflexivity.
  - rewrite Hmean. unfold fdiv. rewrite is_zero_true by reflexivity.
    rewrite is_zero_false by lra. rewrite is_neg_false by lra.
    unfold fmul. rewrite is_zero_false by lra. rewrite is_neg_false by lra.
    reflexivity.
Qed.

Lemma X16_witness :
  width_percent exact logistic_quantile (map Fin [1; 3])
  = Fin (2 * margin logistic_quantile [1; 3] / arithmetic_mean [1; 3] * 100).
Proof.
  apply (proj1 (X16_width_percent logistic_quantile [1; 3]
                  logistic_quantile_symmetric logistic_quantile_increasing
                  ltac:(discriminate)
                  ltac:(rewrite sample_std_1_3; lra))).
  unfold arithmetic_mean. simpl. lra.
Defined.

(** ** The confidence interval: order, offset and unit of the data *)

Lemma arithmetic_mean_Permutation xs ys :
  Permutation xs ys -> arithmetic_mean xs = arithmetic_mean ys.
Proof.
  intros HP. unfold arithmetic_mean.
  rewrite (Rsum_Permutation xs ys HP), (Permutation_length HP). reflexivity.
Qed.

Lemma sample_std_Permutation xs ys :
  Permutation xs ys -> sample_std xs = sample_std ys.
Proof.
  intros HP. unfold sample_std, sample_var.
  rewrite (arithmetic_mean_Permutation xs ys HP), (Permutation_length HP).
  rewrite (Rsum_Permutation _ _
             (Permutation_map
                (fun x => (x - arithmetic_mean ys) * (x - arithmetic_mean ys)) HP)).
  reflexivity.
Qed.

(** X17: the interval does not depend on the order of the data. *)
Theorem X17_ci_permutation (ndtri : R -> R) (xs ys : list R) :
  Permutation xs ys ->
  compute_ci exact ndtri (map Fin xs) = compute_ci exact ndtri (map Fin ys).
Proof.
  intros HP. destruct xs as [|x xs].
  - apply Permutation_nil in HP. subst ys. reflexivity.
  - assert (Hy : ys <> []).
    { intros ->. apply Permutation_sym, Permutation_nil in HP. discriminate. }
    rewrite !compute_ci_exact_unfold by (try assumption; discriminate).
    rewrite (arithmetic_mean_Permutation _ _ HP), (sample_std_Permutation _ _ HP).
    rewrite (Permutation_length HP). reflexivity.
Qed.

Lemma X17_witness :
  compute_ci exact logistic_quantile (map Fin [1; 3; 2])
  = compute_ci exact logistic_quantile (map Fin [2; 1; 3]).
Proof.
  apply (X17_ci_permutation logistic_quantile [1; 3; 2] [2; 1; 3]).
  apply Permutation_sym. apply (Permutation_cons_append [1; 3] 2).
Defined.

Lemma length_shifted (c : R) xs : length (shifted c xs) = length xs.
Proof. unfold shifted. apply length_map. Qed.

Lemma Rsum_shifted (c : R) xs :
  Rsum (shifted c xs) = Rsum xs + INR (length xs) * c.
Proof.
  induction xs as [|x xs IH]; [simpl; lra|].
  change (Rsum (shifted c (x :: xs))) with (x + c + Rsum (shifted c xs)).
  change (Rsum (x :: xs)) with (x + Rsum xs).
  change (length (x :: xs)) with (S (length xs)). rewrite S_INR, IH. ring.
Qed.

Lemma arithmetic_mean_shifted (c : R) xs :
  xs <> [] -> arithmetic_mean (shifted c xs) = arithmetic_mean xs + c.
Proof.
  intros Hne. pose proof (INR_length_pos xs Hne) as Hn.
  unfold arithmetic_mean. rewrite Rsum_shifted, length_shifted. field. lra.
Qed.

Lemma Rsum_map_ext (f g : R -> R) xs :
  (forall x, f x = g x) -> Rsum (map f xs) = Rsum (map g xs).
Proof.
  intros H. induction xs as [|x xs IH]; [reflexivity|].
  change (f x + Rsum (map f xs) = g x + Rsum (map g xs)). rewrite H, IH. reflexivity.
Qed.

Lemma sample_std_shifted (c : R) xs :
  xs <> [] -> sample_std (shifted c xs) = sample_std xs.
Proof.
  intros Hne. unfold sample_std, sample_var.
  rewrite arithmetic_mean_shifted, length_shifted by assumption.
  unfold shifted. rewrite map_map.
  rewrite (Rsum_map_ext _ (fun x => (x - arithmetic_mean xs) * (x - arithmetic_mean xs)));
    [reflexivity|].
  intros x. ring.
Qed.

Lemma Rsum_map_scaled (c : R) (f : R -> R) xs :
  Rsum (map (fun x => c * f x) xs) = c * Rsum (map f xs).
Proof.
  induction xs as [|x xs IH]; [simpl; lra|].
  change (c * f x + Rsum (map (fun x => c * f x) xs) = c * (f x + Rsum (map f xs))).
  rewrite IH. ring.
Qed.

Lemma sample_std_scaled (c : R) xs :
  xs <> [] -> 0 < c -> sample_std (scaled c xs) = c * sample_std xs.
Proof.
  intros Hne Hc. pose proof (INR_length_pos xs Hne) as Hn.
  unfold sample_std.
  assert (Hv : sample_var (scaled c xs) = (c * c) * sample_var xs).
  { unfold sample_var.
    rewrite arithmetic_mean_scaled, length_scaled by assumption.
    unfold scaled. rewrite map_map.
    rewrite (Rsum_map_ext _
               (fun x => (c * c) * ((x - arithmetic_mean xs) * (x - arithmetic_mean xs))))
      by (intros x; ring).
    rewrite Rsum_map_scaled. field. lra. }
  rewrite Hv, sqrt_mult by (try apply sample_var_nonneg; try assumption; nra).
  replace (c * c) with (Rsqr c) by reflexivity.
  rewrite sqrt_Rsqr by lra. reflexivity.
Qed.

Lemma norm_ppf_exact_shift (ndtri : R -> R) (m sc c q : R) :
  0 < q < 1 ->
  norm_ppf exact ndtri (Fin (m + c)) (Fin sc) q
  = fadd exact (norm_ppf exact ndtri (Fin m) (Fin sc) q) (Fin c).
Proof.
  intros Hq. unfold norm_ppf. simpl.
  destruct (is_pos sc); simpl; [|reflexivity].
  rewrite !is_pos_true by lra. simpl. unfold exact. f_equal. ring.
Qed.

Lemma norm_ppf_exact_scale (ndtri : R -> R) (m sc c q : R) :
  0 < c -> 0 < q < 1 ->
  norm_ppf exact ndtri (Fin (c * m)) (Fin (c * sc)) q
  = fmul exact (Fin c) (norm_ppf exact ndtri (Fin m) (Fin sc) q).
Proof.
  intros Hc Hq. unfold norm_ppf. simpl.
  destruct (Rlt_dec 0 sc) as [Hsc | Hsc].
  - rewrite (is_pos_true sc), (is_pos_true (c * sc)) by (try assumption; nra).
    simpl. rewrite !is_pos_true by lra. simpl. unfold exact. f_equal. ring.
  - rewrite (is_pos_false sc), (is_pos_false (c * sc)) by nra. reflexivity.
Qed.

(** X18: adding an offset [c] to every value of nonempty data adds [c] to
    both ends of the interval (a NaN end stays NaN). *)
Theorem X18_ci_shift (ndtri : R -> R) (c : R) (data : list R) :
  data <> [] ->
  compute_ci exact ndtri (map Fin (shifted c data))
  = map_pair (fun a => fadd exact a (Fin c)) (compute_ci exact ndtri (map Fin data)).
Proof.
  intros Hne.
  assert (Hne' : shifted c data <> []) by (destruct data; [congruence | discriminate]).
  rewrite !compute_ci_exact_unfold by assumption.
  rewrite arithmetic_mean_shifted, sample_std_shifted, length_shifted by assumption.
  unfold map_pair. cbn [fst snd].
  rewrite !norm_ppf_exact_shift by lra. reflexivity.
Qed.

Lemma X18_witness :
  compute_ci exact logistic_quantile (map Fin (shifted 100 [1; 3]))
  = map_pair (fun a => fadd exact a (Fin 100))
             (compute_ci exact logistic_quantile (map Fin [1; 3])).
Proof. apply (X18_ci_shift logistic_quantile 100 [1; 3]). discriminate. Defined.

(** X19: multiplying every value of nonempty data by a factor [c > 0] (a
    change of unit) multiplies both ends of the interval by [c] (a NaN end
    stays NaN). *)
Theorem X19_ci_scale (ndtri : R -> R) (c : R) (data : list R) :
  data <> [] -> 0 < c ->
  compute_ci exact ndtri (map Fin (scaled c data))
  = map_pair (fun a => fmul exact (Fin c) a) (compute_ci exact ndtri (map Fin data)).
Proof.
  intros Hne Hc.
  pose proof (scaled_nonempty c data Hne) as Hne'.
  rewrite !compute_ci_exact_unfold by assumption.
  rewrite arithmetic_mean_scaled, sample_std_scaled, length_scaled by assumption.
  replace (c * sample_std data / sqrt (INR (length data)))
    with (c * (sample_std data / sqrt (INR (length data))))
    by (unfold Rdiv; ring).
  unfold map_pair. cbn [fst snd].
  rewrite !norm_ppf_exact_scale by lra. reflexivity.
Qed.

Lemma X19_witness :
  compute_ci exact logistic_quantile (map Fin (scaled 100 [1; 3]))
  = map_pair (fun a => fmul exact (Fin 100) a)
             (compute_ci exact logistic_quantile (map Fin [1; 3])).
Proof. apply (X19_ci_scale logistic_quantile 100 [1; 3]); [discriminate | lra]. Defined.

(** ** Downloading a file once *)

Lemma has_slash_app (d p : string) :
  has_slash (d ++ p) = has_slash d || has_slash p.
Proof.
  induction d as [|c d IH]; [reflexivity|].
  change (is_slash c || has_slash (d ++ p) = is_slash c || has_slash d || has_slash p).
  rewrite IH. apply orb_assoc.
Qed.

Lemma basename_no_slash (p : string) : has_slash (basename p) = false.
Proof.
  induction p as [|a q IHq]; [reflexivity|].
  cbn [basename]. destruct (has_slash q) eqn:Hq; [exact IHq|].
  destruct (is_slash a) eqn:Ha; [exact Hq|].
  cbn [has_slash]. rewrite Ha, Hq. reflexivity.
Qed.

Lemma basename_split (p : string) :
  exists d : string,
    p = (d ++ basename p)%string
    /\ (d = EmptyString \/ exists d', d = (d' ++ String slash EmptyString)%string).
Proof.
  induction p as [|c rest IH].
  - exists EmptyString. split; [reflexivity | left; reflexivity].
  - cbn [basename]. destruct (has_slash rest) eqn:Hs.
    + destruct IH as (d & Hd & Hshape). exists (String c d). split.
      * change (String c rest = String c (d ++ basename rest)). rewrite <- Hd. reflexivity.
      * right. destruct Hshape as [-> | (d' & ->)].
        -- exfalso. change (rest = basename rest) in Hd.
           rewrite Hd, basename_no_slash in Hs. discriminate.
        -- exists (String c d'). reflexivity.
    + destruct (is_slash c) eqn:Hc.
      * exists (String c EmptyString). split; [reflexivity|].
        right. exists EmptyString. unfold is_slash in Hc.
        apply Ascii.eqb_eq in Hc. subst c. reflexivity.
      * exists EmptyString. split; [reflexivity | left; reflexivity].
Qed.

(** [basename] returns the part of the path after its last slash: the
    path is a directory prefix, empty or ending in a slash, followed by the
    base name, and the base name holds no slash.  Taking the base name of
    a base name changes nothing. *)
Lemma basename_last_component (p : string) :
  (exists d : string,
      p = (d ++ basename p)%string
      /\ (d = EmptyString \/ exists d', d = (d' ++ String slash EmptyString)%string))
  /\ has_slash (basename p) = false
  /\ basename (basename p) = basename p.
Proof.
  split; [apply basename_split|]. split; [apply basename_no_slash|].
  pose proof (basename_no_slash p) as Hno.
  destruct (basename p) as [|c rest]; [reflexivity|].
  cbn [has_slash] in Hno. apply orb_false_iff in Hno. destruct Hno as [Hc Hr].
  cbn [basename]. rewrite Hr, Hc. reflexivity.
Qed.

Lemma file_exists_true (f : string) (w : world) :
  f ∈ files w -> file_exists f w = true.
Proof. intros H. unfold file_exists. apply bool_decide_eq_true. exact H. Qed.

Lemma download_outcome urlretrieve (url f : string) (w w1 : world) :
  creates_file urlretrieve ->
  download urlretrieve url w = Some (f, w1) ->
  f = basename url /\ f ∈ files w1.
Proof.
  intros Hc Hd. unfold download in Hd.
  destruct (file_exists (basename url) w) eqn:He; cbn [negb] in Hd.
  - injection Hd as <- <-. split; [reflexivity|].
    unfold file_exists in He. apply bool_decide_eq_true in He. exact He.
  - destruct (urlretrieve url (basename url) w) as [[local w']|] eqn:Hu; [|discriminate].
    injection Hd as <- <-. split; [reflexivity|].
    unfold print. cbn [files]. exact (Hc _ _ _ _ _ Hu).
Qed.

(** X20: when fetching creates the file it is asked to write, a download
    that succeeds leaves the base name of the URL among the files, and
    downloading the same URL again returns the same name without changing
    the files or printing anything: the file is fetched at most once. *)
Theorem X20_download_once urlretrieve (url f : string) (w w1 : world) :
  creates_file urlretrieve ->
  download urlretrieve url w = Some (f, w1) ->
  f = basename url /\ f ∈ files w1
  /\ download urlretrieve url w1 = Some (f, w1).
Proof.
  intros Hc Hd. destruct (download_outcome _ _ _ _ _ Hc Hd) as [Hf Hin].
  split; [exact Hf|]. split; [exact Hin|].
  unfold download. rewrite <- Hf, (file_exists_true f w1 Hin). reflexivity.
Qed.

Lemma creates_file_urlretrieve_ok : creates_file urlretrieve_ok.
Proof.
  intros url filename local w w' H. unfold urlretrieve_ok in H.
  injection H as _ <-. cbn [files]. set_solver.
Qed.

Lemma X20_witness :
  let w := World ∅ [] in
  let w1 := World ({[ "a.csv"%string ]} ∪ ∅) ["Downloaded a.csv"%string] in
  download urlretrieve_ok "http://h/d/a.csv" w1 = Some ("a.csv"%string, w1).
Proof.
  intros w w1.
  apply (X20_download_once urlretrieve_ok "http://h/d/a.csv" "a.csv" w w1
           creates_file_urlretrieve_ok).
  reflexivity.
Defined.



(** ** Integer scores: the two paths *)

(** X22: on positive integer scores whose sum and product are below [2^53]
    the 64-bit integer path, which a call with Python integers takes, and
    the float path return the same float in binary64: the sum and the
    product neither wrap around nor round. *)
Theorem X22_integer_path (zs : list Z) (k : float64) :
  small_scores zs ->
  Int64.mean_plus_gmean round64 zs k = mean_plus_gmean round64 (int_scores zs) k.
Proof.
  intros Hs. rewrite mean_plus_gmean_int_unfold by assumption.
  destruct Hs as (Hpos & Hsum & Hprod).
  pose proof (Zsum_nonneg zs Hpos) as Hs0. pose proof (Zprod_pos zs Hpos) as Hp1.
  unfold Int64.mean_plus_gmean, Int64.amean, Int64.gmean, Int64.np_sum, Int64.np_prod.
  rewrite (fold_sum_int64 zs 0), (fold_prod_int64 zs 1) by (try assumption; lia).
  unfold Int64.to_float.
  replace (0 + Zsum zs)%Z with (Zsum zs) by lia.
  replace (1 * Zprod zs)%Z with (Zprod zs) by lia.
  rewrite !round64_int by lia. reflexivity.
Qed.

Lemma X22_witness :
  Int64.mean_plus_gmean round64 [9; 12]%Z (Fin 1)
  = mean_plus_gmean round64 (int_scores [9; 12]%Z) (Fin 1).
Proof.
  apply (X22_integer_path [9; 12]%Z (Fin 1)).
  split; [repeat constructor | split; reflexivity].
Defined.
